(** * loquet: a value-carrying, idempotent close latch

    A shallow embedding of [loquet.go] (package [loquet], by J. E. Aten):
    the reopenable, history-keeping [Chan[T]] and the lazily allocated
    [Loquet[T]], and with them the two earlier forms of the package, the
    [Loquet[T]] whose constructor makes the channel and the [Chan[T]]
    with [CloseWith] and the resetting reads.  Every method of the Go code takes the latch's mutex for
    its whole body, so the methods are atomic with respect to each other;
    the embedding runs them one at a time, as functions in a small
    state-and-panic monad over the store of Go channels. *)

From Stdlib Require Import ZArith Lia.
From stdpp Require Import prelude strings.

Local Open Scope Z_scope.

(** ** The Go run time the package relies on *)

Module Go.

(** Go's [int] on the 64-bit targets: a two's-complement word, kept as a
    [Z] in [int_min .. int_max]; arithmetic wraps around silently. *)
Definition int_bits : Z := 64.
Definition int_max : Z := 2 ^ (int_bits - 1) - 1.
Definition int_min : Z := - 2 ^ (int_bits - 1).
Definition wrap (z : Z) : Z :=
  (z + 2 ^ (int_bits - 1)) `mod` 2 ^ int_bits - 2 ^ (int_bits - 1).

(** [x++] on an [int]. *)
Definition incr (x : Z) : Z := wrap (x + 1).

(** [len] of a slice, as an [int]. *)
Definition len {A} (s : list A) : Z := Z.of_nat (length s).

(** What running a piece of Go code from a state [S] ends in: it returns
    [a] in state [s], or it panics.  A panic ends the run. *)
Inductive outcome (S A : Type) : Type :=
  | Done (a : A) (s : S)
  | Panic (msg : string).
Arguments Done {S A} a s.
Arguments Panic {S A} msg.

Definition M (S A : Type) : Type := S → outcome S A.

#[global] Instance M_ret {S} : MRet (M S) := λ A a s, Done a s.
#[global] Instance M_bind {S} : MBind (M S) := λ A B k m s,
  match m s with
  | Done a s' => k a s'
  | Panic msg => Panic msg
  end.

Definition panic {S A} (msg : string) : M S A := λ _, Panic msg.
Definition modify {S} (g : S → S) : M S unit := λ s, Done () (g s).

(** The value a run returned, if it returned. *)
Definition result {S A} (o : outcome S A) : option A :=
  match o with Done a _ => Some a | Panic _ => None end.
Definition panicked {S A} (o : outcome S A) : bool :=
  match o with Done _ _ => false | Panic _ => true end.

(** Channels of type [chan struct{}] on which nothing is ever sent: all
    that can be observed of one is whether it has been closed.  The store
    keeps that flag for every channel allocated so far; a channel value is
    [nil] ([None]) or a reference into the store. *)
Abbreviation chanheap := (list bool).
Abbreviation chan := (option nat).

(** [make(chan struct{})]: a fresh, open channel. *)
Definition make_chan : M chanheap chan :=
  λ h, Done (Some (length h)) (h ++ [false]).

(** [close(c)]: panics on a nil channel and on a channel already closed. *)
Definition close (c : chan) : M chanheap unit :=
  λ h,
    match c with
    | None => Panic "close of nil channel"
    | Some i =>
        match h !! i with
        | Some false => Done () (<[i:=true]> h)
        | _ => Panic "close of closed channel"
        end
    end.

(** A receive [<-c] completes exactly when [c] has been closed; on a nil
    channel it blocks forever. *)
Definition fired (h : chanheap) (c : chan) : bool :=
  match c with
  | None => false
  | Some i => default false (h !! i)
  end.

(** [make([]E, n, c)] with every element the zero value [z]. *)
Definition make_slice {E S} (z : E) (n c : Z) : M S (list E) :=
  if (c <? 0) || (c <? n) || (n <? 0)
  then panic "makeslice: cap out of range"
  else mret (replicate (Z.to_nat n) z).

(** [s[i] = x]: the index is checked against the length, not the capacity. *)
Definition store {E S} (s : list E) (i : Z) (x : E) : M S (list E) :=
  if (0 <=? i) && (i <? len s)
  then mret (<[Z.to_nat i:=x]> s)
  else panic "index out of range".

(** [append(s, x)]. *)
Definition append {E} (s : list E) (x : E) : list E := s ++ [x].

(** [copy(dst, src)]: overwrites the first [min(len(dst), len(src))]
    elements of [dst] and returns how many that was. *)
Definition copy {E} (dst src : list E) : list E * Z :=
  let n := Nat.min (length dst) (length src) in
  (take n src ++ drop n dst, Z.of_nat n).

(** A method runs on its receiver [f], an object of type [O] reached
    through a pointer, and on the channel store. *)
Record world (O : Type) : Type := mkWorld {
  heap : chanheap;
  self : O
}.
Arguments mkWorld {O} heap self.
Arguments heap {O} w.
Arguments self {O} w.

(** Reading [f], assigning to its fields, and channel operations on the
    store. *)
Definition this {O} : M (world O) O := λ w, Done (self w) w.
Definition assign {O} (g : O → O) : M (world O) unit :=
  modify (λ w, mkWorld (heap w) (g (self w))).
Definition on_heap {O A} (m : M chanheap A) : M (world O) A := λ w,
  match m (heap w) with
  | Done a h => Done a (mkWorld h (self w))
  | Panic msg => Panic msg
  end.

End Go.

Import Go.

(** ** [Chan[T]]: the reopenable latch with a version history *)

Module ChanLatch.

(** [var ErrAlreadyClosed = fmt.Errorf(...)]: the package's only error
    value.  A Go [error] result is [nil] ([None]) or that value. *)
Inductive error : Type := ErrAlreadyClosed.

Section Chan.

(** The payload type.  All operations deal in [*T]: a payload is [nil]
    ([None]) or points to a [T].  The latch only stores, returns and
    compares with [nil] the pointers it is given; it never looks at what
    they point to. *)
Context {T : Type}.

Record VersionVal : Type := mkVersionVal {
  Version : Z;
  Val : option T
}.

(** [type Chan[T any] struct] without its mutex. *)
Record Chan : Type := mkChan {
  whenClosed : chan;
  closeVal : option T;
  isClosed : bool;
  retain : Z;
  version : Z;
  past : list VersionVal
}.

(** A latch together with the channel store its [whenClosed] lives in. *)
Definition world : Type := Go.world Chan.

Definition set_whenClosed (c : chan) (f : Chan) : Chan :=
  mkChan c (closeVal f) (isClosed f) (retain f) (version f) (past f).
Definition set_closeVal (v : option T) (f : Chan) : Chan :=
  mkChan (whenClosed f) v (isClosed f) (retain f) (version f) (past f).
Definition set_isClosed (b : bool) (f : Chan) : Chan :=
  mkChan (whenClosed f) (closeVal f) b (retain f) (version f) (past f).
Definition set_version (n : Z) (f : Chan) : Chan :=
  mkChan (whenClosed f) (closeVal f) (isClosed f) (retain f) n (past f).
Definition set_past (p : list VersionVal) (f : Chan) : Chan :=
  mkChan (whenClosed f) (closeVal f) (isClosed f) (retain f) (version f) p.

(** [NewChan]: allocates the channel, fills the struct, then sets up the
    history.  It runs before there is a latch, on the channel store alone. *)
Definition NewChan (closeVal0 : option T) (retainVersions : Z) : M chanheap Chan :=
  c ← make_chan;
  let f := mkChan c closeVal0 false retainVersions 0 [] in
  if 0 <? retain f then
    p ← make_slice (mkVersionVal 0 None) 0 (wrap (retain f + 1));
    p ← store p 0 (mkVersionVal (version f) closeVal0);
    mret (set_past p f)
  else if retain f <? 0 then
    panic "retainVersions cannot be negative"
  else
    mret f.

(** The block that [Close], [Set], [SetIfOpen], [ReOpen] and [SetAndClose]
    each carry after their [f.version++]:
<<
    if f.retain > 0 {
        f.past = append(f.past, VersionVal[T]{Version: f.version, Val: closeVal})
        if len(f.past) > f.retain {
            f.past = f.past[1:] // discard the oldest
        }
    }
>> *)
Definition keepPast (closeVal0 : option T) : M world unit :=
  f ← this;
  if 0 <? retain f then
    assign (set_past (append (past f) (mkVersionVal (version f) closeVal0)));;
    f ← this;
    if retain f <? len (past f)
    then assign (set_past (drop 1 (past f)))
    else mret ()
  else mret ().

(** [f.closeVal = closeVal; f.version++] and the history block. *)
Definition replace (closeVal0 : option T) : M world unit :=
  assign (set_closeVal closeVal0);;
  f ← this;
  assign (set_version (incr (version f)));;
  keepPast closeVal0.

Definition WhenClosed : M world chan :=
  f ← this;
  mret (whenClosed f).

Definition Close (closeVal0 : option T) : M world (option error) :=
  f ← this;
  if isClosed f then mret (Some ErrAlreadyClosed) else
  assign (set_isClosed true);;
  (match closeVal0 with
   | Some _ => replace closeVal0
   | None => mret ()
   end);;
  f ← this;
  on_heap (close (whenClosed f));;
  mret None.

Definition Set_ (closeVal0 : option T) : M world (option T) :=
  f ← this;
  let old := closeVal f in
  replace closeVal0;;
  mret old.

Definition SetIfOpen (closeVal0 : option T) : M world (option T) :=
  f ← this;
  let old := closeVal f in
  if isClosed f then mret old else
  replace closeVal0;;
  mret old.

Definition Read : M world (option T * bool) :=
  f ← this;
  mret (closeVal f, isClosed f).

Definition ReadVersion : M world (option T * bool * Z) :=
  f ← this;
  mret (closeVal f, isClosed f, version f).

(** [ReadPast] writes into the caller's slice [d]; the embedding returns
    the slice as it is after the call, next to [numCopied]. *)
Definition ReadPast (d : list VersionVal) : M world (list VersionVal * Z) :=
  f ← this;
  mret (copy d (past f)).

Definition ReOpen (closeVal0 : option T) : M world unit :=
  replace closeVal0;;
  f ← this;
  if negb (isClosed f) then mret () else
  assign (set_isClosed false);;
  c ← on_heap make_chan;
  assign (set_whenClosed c).

Definition Open : M world unit :=
  f ← this;
  if negb (isClosed f) then mret () else
  assign (set_isClosed false);;
  c ← on_heap make_chan;
  assign (set_whenClosed c).

Definition SetAndClose (closeVal0 : option T) : M world (option error) :=
  f ← this;
  if isClosed f then mret (Some ErrAlreadyClosed) else
  replace closeVal0;;
  assign (set_isClosed true);;
  f ← this;
  on_heap (close (whenClosed f));;
  mret None.

(** *** Runs of API calls *)

Inductive call : Type :=
  | CallClose (v : option T)
  | CallSetAndClose (v : option T)
  | CallSet (v : option T)
  | CallSetIfOpen (v : option T)
  | CallRead
  | CallReadVersion
  | CallReadPast (d : list VersionVal)
  | CallOpen
  | CallReOpen (v : option T)
  | CallWhenClosed.

Inductive reply : Type :=
  | RetError (e : option error)
  | RetOld (old : option T)
  | RetRead (v : option T) (closed : bool)
  | RetReadVersion (v : option T) (closed : bool) (n : Z)
  | RetReadPast (d : list VersionVal) (numCopied : Z)
  | RetNothing
  | RetChan (c : chan).

Definition step (c : call) : M world reply :=
  match c with
  | CallClose v => e ← Close v; mret (RetError e)
  | CallSetAndClose v => e ← SetAndClose v; mret (RetError e)
  | CallSet v => old ← Set_ v; mret (RetOld old)
  | CallSetIfOpen v => old ← SetIfOpen v; mret (RetOld old)
  | CallRead => r ← Read; mret (RetRead r.1 r.2)
  | CallReadVersion => r ← ReadVersion; mret (RetReadVersion r.1.1 r.1.2 r.2)
  | CallReadPast d => r ← ReadPast d; mret (RetReadPast r.1 r.2)
  | CallOpen => Open;; mret RetNothing
  | CallReOpen v => ReOpen v;; mret RetNothing
  | CallWhenClosed => c ← WhenClosed; mret (RetChan c)
  end.

Fixpoint run (cs : list call) : M world (list reply) :=
  match cs with
  | [] => mret []
  | c :: cs => r ← step c; rs ← run cs; mret (r :: rs)
  end.

(** A program that makes a latch and goes on with it: [NewChan(p, r)]
    followed by [k] on the new latch. *)
Definition with_new {A} (p : option T) (r : Z) (k : M world A)
    : chanheap → outcome world A := λ h,
  match NewChan p r h with
  | Done f h' => k (mkWorld h' f)
  | Panic msg => Panic msg
  end.

(** The states a latch can be in: those that some run of API calls on a
    latch returned by [NewChan] ends in. *)
Definition reachable (w : world) : Prop :=
  ∃ h p r cs rs, with_new p r (run cs) h = Done rs w.

(** The calls that replace the payload.  [Close(nil)] does not, nor does
    [SetIfOpen], [Close] or [SetAndClose] on a closed latch. *)
Definition mutates (c : call) (f : Chan) : bool :=
  match c with
  | CallSet _ | CallReOpen _ => true
  | CallSetIfOpen _ | CallSetAndClose _ => negb (isClosed f)
  | CallClose (Some _) => negb (isClosed f)
  | _ => false
  end.

(** The payload a call passes, if it passes one. *)
Definition payload (c : call) : option T :=
  match c with
  | CallClose v | CallSetAndClose v | CallSet v | CallSetIfOpen v
  | CallReOpen v => v
  | _ => None
  end.

(** *** The effect of the methods, in closed form *)

(** What the history block leaves in [f.past] when it records [e] in a
    history [p] under retention [r]. *)
Definition pushed (r : Z) (p : list VersionVal) (e : VersionVal) : list VersionVal :=
  if 0 <? r then
    if r <? len (append p e) then drop 1 (append p e) else append p e
  else p.

(** The latch after its payload was replaced by [v]. *)
Definition replaced (v : option T) (f : Chan) : Chan :=
  mkChan (whenClosed f) v (isClosed f) (retain f) (incr (version f))
    (pushed (retain f) (past f) (mkVersionVal (incr (version f)) v)).

(** Reopening installs a channel that did not exist before. *)
Definition reopened (f : Chan) (h : chanheap) : world :=
  mkWorld (h ++ [false]) (set_whenClosed (Some (length h)) (set_isClosed false f)).

(** *** Invariants *)

(** The installed channel is a channel of the store, and it has been
    closed exactly when the latch is closed. *)
Definition chan_inv (w : world) : Prop :=
  ∃ i, whenClosed (self w) = Some i ∧ heap w !! i = Some (isClosed (self w)).

(** History is kept, and holds no more than [retain] entries. *)
Definition past_inv (f : Chan) : Prop :=
  0 < retain f ∧ len (past f) ≤ retain f.

End Chan.

Arguments VersionVal : clear implicits.
Arguments Chan : clear implicits.
Arguments world : clear implicits.
Arguments call : clear implicits.
Arguments reply : clear implicits.

End ChanLatch.

(** ** [Loquet[T]]: the one-way latch whose channel is allocated lazily *)

Module LazyLoquet.

Section Loquet.

Context {T : Type}.

(** [type Loquet[T any] struct] without its mutex. *)
Record Loquet : Type := mkLoquet {
  ch : chan;
  closeVal : option T;
  isClosed : bool
}.

Definition world : Type := Go.world Loquet.

Definition set_ch (c : chan) (f : Loquet) : Loquet :=
  mkLoquet c (closeVal f) (isClosed f).
Definition set_closeVal (v : option T) (f : Loquet) : Loquet :=
  mkLoquet (ch f) v (isClosed f).
Definition set_isClosed (b : bool) (f : Loquet) : Loquet :=
  mkLoquet (ch f) (closeVal f) b.

(** [NewLoquet] fills in [closeVal] only: [ch] is left at its zero value,
    the nil channel. *)
Definition NewLoquet (closeVal0 : option T) : M chanheap Loquet :=
  mret (mkLoquet None closeVal0 false).

Definition Close (closeVal0 : option T) : M world unit :=
  f ← this;
  if isClosed f then mret () else
  assign (set_isClosed true);;
  (match closeVal0 with
   | Some _ => assign (set_closeVal closeVal0)
   | None => mret ()
   end);;
  f ← this;
  on_heap (close (ch f)).

Definition Set_ (closeVal0 : option T) : M world (option T) :=
  f ← this;
  let old := closeVal f in
  assign (set_closeVal closeVal0);;
  mret old.

Definition SetIfOpen (closeVal0 : option T) : M world (option T) :=
  f ← this;
  let old := closeVal f in
  if isClosed f then mret old else
  assign (set_closeVal closeVal0);;
  mret old.

Definition Read : M world (option T * bool) :=
  f ← this;
  mret (closeVal f, isClosed f).

Definition WhenClosed : M world chan :=
  f ← this;
  (if bool_decide (ch f = None)
   then c ← on_heap make_chan; assign (set_ch c)
   else mret ());;
  f ← this;
  mret (ch f).

Inductive call : Type :=
  | CallClose (v : option T)
  | CallSet (v : option T)
  | CallSetIfOpen (v : option T)
  | CallRead
  | CallWhenClosed.

Definition is_WhenClosed (c : call) : bool :=
  match c with CallWhenClosed => true | _ => false end.

Inductive reply : Type :=
  | RetNothing
  | RetOld (old : option T)
  | RetRead (v : option T) (closed : bool)
  | RetChan (c : chan).

Definition step (c : call) : M world reply :=
  match c with
  | CallClose v => Close v;; mret RetNothing
  | CallSet v => old ← Set_ v; mret (RetOld old)
  | CallSetIfOpen v => old ← SetIfOpen v; mret (RetOld old)
  | CallRead => r ← Read; mret (RetRead r.1 r.2)
  | CallWhenClosed => c ← WhenClosed; mret (RetChan c)
  end.

Fixpoint run (cs : list call) : M world (list reply) :=
  match cs with
  | [] => mret []
  | c :: cs => r ← step c; rs ← run cs; mret (r :: rs)
  end.

(** [NewLoquet(p)] followed by [k] on the new latch. *)
Definition with_new {A} (p : option T) (k : M world A)
    : chanheap → outcome world A := λ h,
  match NewLoquet p h with
  | Done f h' => k (mkWorld h' f)
  | Panic msg => Panic msg
  end.

(** The latch as it is before the first [WhenClosed]: open, on the nil
    channel. *)
Definition unallocated (w : world) : Prop :=
  ch (self w) = None ∧ isClosed (self w) = false.

End Loquet.

Arguments Loquet : clear implicits.
Arguments world : clear implicits.
Arguments call : clear implicits.
Arguments reply : clear implicits.

End LazyLoquet.

(** ** Some latches, with payloads pointing to numbers *)

Module Examples.

Import ChanLatch.

(** After [NewChan(&1, 0)]. *)
Definition open_latch : world nat :=
  mkWorld [false] (mkChan (Some 0%nat) (Some 1%nat) false 0 0 []).

(** After [NewChan(nil, 0)] and [Close(&1)]. *)
Definition closed_latch : world nat :=
  mkWorld [true] (mkChan (Some 0%nat) (Some 1%nat) true 0 1 []).

(** A latch keeping two versions, with both slots taken. *)
Definition history_latch : world nat :=
  mkWorld [false]
    (mkChan (Some 0%nat) (Some 2%nat) false 2 1
       [mkVersionVal 0 (Some 1%nat); mkVersionVal 1 (Some 2%nat)]).

End Examples.

(** ** [Loquet[T]] with the channel made by the constructor

    The earlier [Loquet[T]] of [loquet.go]: the struct and the bodies of
    [Close], [Set] and [Read] are those of the lazy one; [NewLoquet] makes
    the channel and [WhenClosed] only returns it.  There is no
    [SetIfOpen]. *)

Module EagerLoquet.

Section Loquet.

Context {T : Type}.

Record Loquet : Type := mkLoquet {
  ch : chan;
  closeVal : option T;
  isClosed : bool
}.

Definition world : Type := Go.world Loquet.

Definition set_closeVal (v : option T) (f : Loquet) : Loquet :=
  mkLoquet (ch f) v (isClosed f).
Definition set_isClosed (b : bool) (f : Loquet) : Loquet :=
  mkLoquet (ch f) (closeVal f) b.

Definition NewLoquet (closeVal0 : option T) : M chanheap Loquet :=
  c ← make_chan;
  mret (mkLoquet c closeVal0 false).

Definition Close (closeVal0 : option T) : M world unit :=
  f ← this;
  if isClosed f then mret () else
  assign (set_isClosed true);;
  (match closeVal0 with
   | Some _ => assign (set_closeVal closeVal0)
   | None => mret ()
   end);;
  f ← this;
  on_heap (close (ch f)).

Definition Set_ (closeVal0 : option T) : M world (option T) :=
  f ← this;
  let old := closeVal f in
  assign (set_closeVal closeVal0);;
  mret old.

Definition Read : M world (option T * bool) :=
  f ← this;
  mret (closeVal f, isClosed f).

Definition WhenClosed : M world chan :=
  f ← this;
  mret (ch f).

Inductive call : Type :=
  | CallClose (v : option T)
  | CallSet (v : option T)
  | CallRead
  | CallWhenClosed.

Inductive reply : Type :=
  | RetNothing
  | RetOld (old : option T)
  | RetRead (v : option T) (closed : bool)
  | RetChan (c : chan).

Definition step (c : call) : M world reply :=
  match c with
  | CallClose v => Close v;; mret RetNothing
  | CallSet v => old ← Set_ v; mret (RetOld old)
  | CallRead => r ← Read; mret (RetRead r.1 r.2)
  | CallWhenClosed => c ← WhenClosed; mret (RetChan c)
  end.

Fixpoint run (cs : list call) : M world (list reply) :=
  match cs with
  | [] => mret []
  | c :: cs => r ← step c; rs ← run cs; mret (r :: rs)
  end.

(** [NewLoquet(p)] followed by [k] on the new latch. *)
Definition with_new {A} (p : option T) (k : M world A)
    : chanheap → outcome world A := λ h,
  match NewLoquet p h with
  | Done f h' => k (mkWorld h' f)
  | Panic msg => Panic msg
  end.

(** The channel is installed, and closed exactly when the latch is. *)
Definition chan_inv (w : world) : Prop :=
  ∃ i, ch (self w) = Some i ∧ heap w !! i = Some (isClosed (self w)).

End Loquet.

Arguments Loquet : clear implicits.
Arguments world : clear implicits.
Arguments call : clear implicits.
Arguments reply : clear implicits.

End EagerLoquet.

(** ** [Chan[T]] with [CloseWith] and the resetting reads

    The [Chan[T]] that came before the one with [Open], [ReOpen] and the
    history: [Close] takes no payload, [CloseWith] always stores the one it
    is given, and [ReadVersionAndReset] and [ReadAndReset] hand out the
    payload and put the latch back to open.  The version is an [int64]. *)

Module ResetChan.

Inductive error : Type := ErrAlreadyClosed.

Section Chan.

Context {T : Type}.

Record Chan : Type := mkChan {
  whenClosed : chan;
  closeVal : option T;
  isClosed : bool;
  version : Z
}.

Definition world : Type := Go.world Chan.

Definition set_closeVal (v : option T) (f : Chan) : Chan :=
  mkChan (whenClosed f) v (isClosed f) (version f).
Definition set_isClosed (b : bool) (f : Chan) : Chan :=
  mkChan (whenClosed f) (closeVal f) b (version f).
Definition set_version (n : Z) (f : Chan) : Chan :=
  mkChan (whenClosed f) (closeVal f) (isClosed f) n.

(** [f.version++] on the [int64] field: 64 bits on every target. *)
Definition bump : M world unit :=
  f ← this;
  assign (set_version (incr (version f))).

Definition WhenClosed : M world chan :=
  f ← this;
  mret (whenClosed f).

Definition NewChan (closeVal0 : option T) : M chanheap Chan :=
  c ← make_chan;
  mret (mkChan c closeVal0 false 0).

Definition CloseWith (closeVal0 : option T) : M world (option error) :=
  f ← this;
  if isClosed f then mret (Some ErrAlreadyClosed) else
  assign (set_isClosed true);;
  assign (set_closeVal closeVal0);;
  bump;;
  f ← this;
  on_heap (close (whenClosed f));;
  mret None.

Definition Close : M world (option error) :=
  f ← this;
  if isClosed f then mret (Some ErrAlreadyClosed) else
  assign (set_isClosed true);;
  f ← this;
  on_heap (close (whenClosed f));;
  mret None.

Definition Set_ (closeVal0 : option T) : M world (option T) :=
  f ← this;
  let old := closeVal f in
  assign (set_closeVal closeVal0);;
  bump;;
  mret old.

Definition SetIfOpen (closeVal0 : option T) : M world (option T) :=
  f ← this;
  let old := closeVal f in
  if isClosed f then mret old else
  assign (set_closeVal closeVal0);;
  bump;;
  mret old.

Definition Read : M world (option T * bool) :=
  f ← this;
  mret (closeVal f, isClosed f).

Definition ReadVersionAndReset (newCloseVal : option T) : M world (option T * Z) :=
  f ← this;
  let closeVal0 := closeVal f in
  let version0 := version f in
  assign (set_isClosed false);;
  assign (set_closeVal newCloseVal);;
  bump;;
  mret (closeVal0, version0).

Definition ReadAndReset (newCloseVal : option T) : M world (option T) :=
  f ← this;
  let closeVal0 := closeVal f in
  assign (set_isClosed false);;
  assign (set_closeVal newCloseVal);;
  bump;;
  mret closeVal0.

Inductive call : Type :=
  | CallCloseWith (v : option T)
  | CallClose
  | CallSet (v : option T)
  | CallSetIfOpen (v : option T)
  | CallRead
  | CallReadVersionAndReset (v : option T)
  | CallReadAndReset (v : option T)
  | CallWhenClosed.

Inductive reply : Type :=
  | RetError (e : option error)
  | RetOld (old : option T)
  | RetRead (v : option T) (closed : bool)
  | RetReadVersion (v : option T) (n : Z)
  | RetChan (c : chan).

Definition step (c : call) : M world reply :=
  match c with
  | CallCloseWith v => e ← CloseWith v; mret (RetError e)
  | CallClose => e ← Close; mret (RetError e)
  | CallSet v => old ← Set_ v; mret (RetOld old)
  | CallSetIfOpen v => old ← SetIfOpen v; mret (RetOld old)
  | CallRead => r ← Read; mret (RetRead r.1 r.2)
  | CallReadVersionAndReset v =>
      r ← ReadVersionAndReset v; mret (RetReadVersion r.1 r.2)
  | CallReadAndReset v => old ← ReadAndReset v; mret (RetOld old)
  | CallWhenClosed => c ← WhenClosed; mret (RetChan c)
  end.

Fixpoint run (cs : list call) : M world (list reply) :=
  match cs with
  | [] => mret []
  | c :: cs => r ← step c; rs ← run cs; mret (r :: rs)
  end.

Definition with_new {A} (p : option T) (k : M world A)
    : chanheap → outcome world A := λ h,
  match NewChan p h with
  | Done f h' => k (mkWorld h' f)
  | Panic msg => Panic msg
  end.

(** The two calls that close the latch. *)
Definition closes (c : call) : bool :=
  match c with
  | CallCloseWith _ | CallClose => true
  | _ => false
  end.

(** The two calls that reset the latch. *)
Definition resets (c : call) : bool :=
  match c with
  | CallReadVersionAndReset _ | CallReadAndReset _ => true
  | _ => false
  end.

(** The channel is installed, and closed exactly when the latch is. *)
Definition chan_inv (w : world) : Prop :=
  ∃ i, whenClosed (self w) = Some i ∧ heap w !! i = Some (isClosed (self w)).

End Chan.

Arguments Chan : clear implicits.
Arguments world : clear implicits.
Arguments call : clear implicits.
Arguments reply : clear implicits.

End ResetChan.

(** ** Kinds of calls, and shapes of states *)

Module ChanCalls.

Section Calls.

Import ChanLatch.

Context {T : Type}.

(** [Open] and [ReOpen]. *)
Definition reopens (c : call T) : bool :=
  match c with
  | CallOpen | CallReOpen _ => true
  | _ => false
  end.

(** The calls that return early on a closed latch, and the reads. *)
Definition quiet (c : call T) : bool :=
  match c with
  | CallSet _ | CallOpen | CallReOpen _ => false
  | _ => true
  end.

(** The calls that neither close nor reopen. *)
Definition silent (c : call T) : bool :=
  match c with
  | CallSet _ | CallSetIfOpen _ | CallRead | CallReadVersion
  | CallReadPast _ | CallWhenClosed => true
  | _ => false
  end.

(** [var f Chan[T]]: the zero value, every field at its zero. *)
Definition zero_Chan : Chan T := mkChan None None false 0 0 [].

(** The versions in the history count up by one, to the current one. *)
Definition consecutive (f : Chan T) : Prop :=
  Version <$> past f = seqZ (version f - len (past f) + 1) (len (past f)).

End Calls.

End ChanCalls.

Module LazyShape.

Section Shape.

Import LazyLoquet.

Context {T : Type}.

(** The lazy latch once its channel is there: the channel is closed
    exactly when the latch is. *)
Definition chan_inv (w : world T) : Prop :=
  ∃ i, ch (self w) = Some i ∧ heap w !! i = Some (isClosed (self w)).

End Shape.

End LazyShape.

(** ** Some latches of the other kinds *)

Module MoreExamples.

(** After [NewLoquet(&1)], [WhenClosed()] and [Close(nil)]. *)
Definition lazy_closed : LazyLoquet.world nat :=
  mkWorld [true] (LazyLoquet.mkLoquet (Some 0%nat) (Some 1%nat) true).

(** After [NewChan(&1)] of the resetting [Chan]. *)
Definition reset_open : ResetChan.world nat :=
  mkWorld [false] (ResetChan.mkChan (Some 0%nat) (Some 1%nat) false 0).

(** After [NewChan(nil)] and [CloseWith(&1)]. *)
Definition reset_closed : ResetChan.world nat :=
  mkWorld [true] (ResetChan.mkChan (Some 0%nat) (Some 1%nat) true 1).

End MoreExamples.

(** * Properties of [Chan[T]] *)

Section ChanFacts.

Import ChanLatch.

Context {T : Type}.

Implicit Types (w : world T) (f : Chan T) (v : option T) (h : chanheap).
Implicit Types (e : VersionVal T) (p d : list (VersionVal T)).

(** Unfolds the monad down to matches on the data. *)
Ltac exec :=
  unfold step, Close, SetAndClose, Set_, SetIfOpen, Read, ReadVersion,
    ReadPast, Open, ReOpen, WhenClosed, replace, keepPast, on_heap, close,
    make_chan, this, assign, modify, panic, mbind, M_bind, mret, M_ret;
  simpl.

Lemma keepPast_eq v w :
  keepPast v w =
  Done () (mkWorld (heap w)
             (set_past (pushed (retain (self w)) (past (self w))
                          (mkVersionVal (version (self w)) v)) (self w))).
Proof.
  destruct w as [h [c cv b r n p]]. unfold pushed. exec.
  destruct (0 <? r); simpl; [|reflexivity].
  destruct (r <? len (append p _)); reflexivity.
Qed.

Lemma replace_eq v w :
  replace v w = Done () (mkWorld (heap w) (replaced v (self w))).
Proof.
  destruct w as [h [c cv b r n p]].
  unfold replace, mbind, M_bind, assign, modify, this; simpl.
  rewrite keepPast_eq. reflexivity.
Qed.

(** Unfolds a method down to its calls of [replace]. *)
Ltac enter :=
  unfold step, Close, SetAndClose, Set_, SetIfOpen, Read, ReadVersion,
    ReadPast, Open, ReOpen, WhenClosed, mbind, M_bind, mret, M_ret, this,
    assign, modify;
  simpl; rewrite ?replace_eq; simpl.

(** ** The methods as functions of the state *)

Lemma Close_closed_eq v w :
  isClosed (self w) = true → Close v w = Done (Some ErrAlreadyClosed) w.
Proof.
  destruct w as [h [c cv b r n p]]; simpl. intros ->. reflexivity.
Qed.

Lemma Close_open_eq v w i :
  isClosed (self w) = false →
  whenClosed (self w) = Some i →
  heap w !! i = Some false →
  Close v w =
  Done None
    (mkWorld (<[i:=true]> (heap w))
       (match v with
        | Some _ => replaced v (set_isClosed true (self w))
        | None => set_isClosed true (self w)
        end)).
Proof.
  destruct w as [h [c cv b r n p]]; simpl. intros -> -> Hi.
  enter. destruct v; enter; unfold on_heap, close; simpl; rewrite Hi; reflexivity.
Qed.

Lemma SetAndClose_closed_eq v w :
  isClosed (self w) = true → SetAndClose v w = Done (Some ErrAlreadyClosed) w.
Proof.
  destruct w as [h [c cv b r n p]]; simpl. intros ->. reflexivity.
Qed.

Lemma SetAndClose_open_eq v w i :
  isClosed (self w) = false →
  whenClosed (self w) = Some i →
  heap w !! i = Some false →
  SetAndClose v w =
  Done None
    (mkWorld (<[i:=true]> (heap w)) (set_isClosed true (replaced v (self w)))).
Proof.
  destruct w as [h [c cv b r n p]]; simpl. intros -> -> Hi.
  enter. unfold on_heap, close; simpl. rewrite Hi. reflexivity.
Qed.

Lemma Set_eq v w :
  Set_ v w = Done (closeVal (self w)) (mkWorld (heap w) (replaced v (self w))).
Proof. destruct w as [h f]. enter. reflexivity. Qed.

Lemma SetIfOpen_eq v w :
  SetIfOpen v w =
  Done (closeVal (self w))
    (if isClosed (self w) then w else mkWorld (heap w) (replaced v (self w))).
Proof.
  destruct w as [h [c cv b r n p]]. enter. destruct b; enter; reflexivity.
Qed.

Lemma Open_eq w :
  Open w = Done () (if isClosed (self w) then reopened (self w) (heap w) else w).
Proof.
  destruct w as [h [c cv b r n p]]. enter. destruct b; reflexivity.
Qed.

Lemma ReOpen_eq v w :
  ReOpen v w =
  Done () (if isClosed (self w)
           then reopened (replaced v (self w)) (heap w)
           else mkWorld (heap w) (replaced v (self w))).
Proof.
  destruct w as [h [c cv b r n p]]. enter. destruct b; reflexivity.
Qed.

Lemma Close_inv_eq v w i :
  whenClosed (self w) = Some i →
  heap w !! i = Some (isClosed (self w)) →
  Close v w =
  if isClosed (self w) then Done (Some ErrAlreadyClosed) w
  else Done None
         (mkWorld (<[i:=true]> (heap w))
            (match v with
             | Some _ => replaced v (set_isClosed true (self w))
             | None => set_isClosed true (self w)
             end)).
Proof.
  intros Hc Hi. destruct (isClosed (self w)) eqn:Hb.
  - by apply Close_closed_eq.
  - by apply Close_open_eq.
Qed.

Lemma SetAndClose_inv_eq v w i :
  whenClosed (self w) = Some i →
  heap w !! i = Some (isClosed (self w)) →
  SetAndClose v w =
  if isClosed (self w) then Done (Some ErrAlreadyClosed) w
  else Done None
         (mkWorld (<[i:=true]> (heap w)) (set_isClosed true (replaced v (self w)))).
Proof.
  intros Hc Hi. destruct (isClosed (self w)) eqn:Hb.
  - by apply SetAndClose_closed_eq.
  - by apply SetAndClose_open_eq.
Qed.

(** ** The signal and the closed flag *)

(** [NewChan] returns only without history: with [retainVersions > 0] the
    store into the empty slice panics, with [retainVersions < 0] the
    explicit check does. *)
Lemma NewChan_Done (p : option T) r h f h' :
  NewChan p r h = Done f h' →
  r = 0 ∧ f = mkChan (Some (length h)) p false 0 0 [] ∧ h' = h ++ [false].
Proof.
  unfold NewChan, make_chan, mbind, M_bind; simpl.
  destruct (0 <? r) eqn:Hpos.
  - unfold make_slice.
    destruct ((wrap (r + 1) <? 0) || (wrap (r + 1) <? 0) || (0 <? 0));
      unfold panic, mret, M_ret; simpl; discriminate.
  - destruct (r <? 0) eqn:Hneg; unfold panic, mret, M_ret; [discriminate|].
    assert (r = 0) as -> by lia. by intros [= <- <-].
Qed.

Lemma NewChan_chan_inv (p : option T) r h f h' :
  NewChan p r h = Done f h' → chan_inv (mkWorld h' f).
Proof.
  intros (-> & -> & ->)%NewChan_Done. exists (length h); simpl.
  split; [done | apply list_lookup_middle; done].
Qed.

(** Every call returns in a state where the invariant holds, and the
    invariant holds again afterwards. *)
Lemma step_chan_inv c w :
  chan_inv w → ∃ r w', step c w = Done r w' ∧ chan_inv w'.
Proof.
  destruct w as [h [c0 cv b r0 n p]]. intros (i & Hc & Hi); simpl in *.
  subst c0.
  assert (Hlt : (i < length h)%nat) by (by eapply lookup_lt_Some).
  destruct c; unfold step, mbind, M_bind, mret, M_ret;
    rewrite ?(Close_inv_eq _ _ i), ?(SetAndClose_inv_eq _ _ i), ?Set_eq,
      ?SetIfOpen_eq, ?Open_eq, ?ReOpen_eq by done;
    simpl; try destruct b; try destruct v; simpl;
    eexists _, _; (split; [reflexivity|]);
    unfold chan_inv, reopened; simpl;
    first [ by (exists i; split; [done | by apply list_lookup_insert_eq])
          | by (exists i; split; done)
          | by (exists (length h); split; [done | by apply list_lookup_middle]) ].
Qed.

(** A closed channel stays closed: nothing reopens a channel. *)
Lemma step_fired_mono c w r w' i :
  step c w = Done r w' → heap w !! i = Some true → heap w' !! i = Some true.
Proof.
  destruct w as [h [c0 cv b r0 n p]].
  destruct c; unfold step, mbind, M_bind, mret, M_ret;
    rewrite ?Set_eq, ?SetIfOpen_eq, ?Open_eq, ?ReOpen_eq; simpl.
  all: try (destruct b; simpl; intros [= <- <-]; simpl; try done;
            intros Hi; by apply lookup_app_l_Some).
  all: try (intros [= <- <-]; done).
  - destruct (Close v _) as [e w1|] eqn:Hcl; [|discriminate].
    intros [= <- <-]. revert Hcl. enter.
    destruct b; [by intros [= <- <-]|].
    destruct v; enter; unfold on_heap, close; simpl;
      (destruct c0 as [j|]; [|discriminate]);
      (destruct (h !! j) as [[]|] eqn:Hj; try discriminate);
      intros [= <- <-]; simpl; intros Hi;
      (destruct (decide (j = i)) as [->|];
        [congruence | by rewrite list_lookup_insert_ne]).
  - destruct (SetAndClose v _) as [e w1|] eqn:Hcl; [|discriminate].
    intros [= <- <-]. revert Hcl. enter.
    destruct b; [by intros [= <- <-]|].
    enter; unfold on_heap, close; simpl;
      (destruct c0 as [j|]; [|discriminate]);
      (destruct (h !! j) as [[]|] eqn:Hj; try discriminate);
      intros [= <- <-]; simpl; intros Hi;
      (destruct (decide (j = i)) as [->|];
        [congruence | by rewrite list_lookup_insert_ne]).
Qed.

Lemma run_cons c cs w :
  run (c :: cs) w =
  match step c w with
  | Done r w1 =>
      match run cs w1 with
      | Done rs w2 => Done (r :: rs) w2
      | Panic msg => Panic msg
      end
  | Panic msg => Panic msg
  end.
Proof. reflexivity. Qed.

Lemma run_chan_inv cs : ∀ w,
  chan_inv w → ∃ rs w', run cs w = Done rs w' ∧ chan_inv w'.
Proof.
  induction cs as [|c cs IH]; intros w Hw.
  - by exists [], w.
  - destruct (step_chan_inv c w Hw) as (r & w1 & Hstep & Hw1).
    destruct (IH w1 Hw1) as (rs & w2 & Hrun & Hw2).
    exists (r :: rs), w2. by rewrite run_cons, Hstep, Hrun.
Qed.

Lemma run_fired_mono cs i : ∀ w rs w',
  run cs w = Done rs w' → heap w !! i = Some true → heap w' !! i = Some true.
Proof.
  induction cs as [|c cs IH]; intros w rs w'.
  - by intros [= <- <-].
  - rewrite run_cons.
    destruct (step c w) as [r w1|] eqn:Hstep; [|discriminate].
    destruct (run cs w1) as [rs1 w2|] eqn:Hrun; [|discriminate].
    intros [= <- <-] Hi. eapply IH; [done|]. by eapply step_fired_mono.
Qed.

Lemma reachable_chan_inv w : reachable w → chan_inv w.
Proof.
  intros (h & p & r & cs & rs & Hrun). unfold with_new in Hrun.
  destruct (NewChan p r h) as [f h'|] eqn:Hnew; [|discriminate].
  apply NewChan_chan_inv in Hnew.
  destruct (run_chan_inv cs _ Hnew) as (rs' & w' & Hrun' & Hw').
  congruence.
Qed.

Lemma chan_inv_fired w :
  chan_inv w → fired (heap w) (whenClosed (self w)) = isClosed (self w).
Proof. intros (i & -> & Hi); simpl. by rewrite Hi. Qed.

(** ** Construction *)

(** C1, as the code has it: with a retention count of one, [NewChan] does
    not return a latch.  The history slice is made with length 0, and the
    store of the first entry at index 0 is out of range. *)
Theorem NewChan_retain_one_panics (p : option T) h :
  NewChan p 1 h = Panic "index out of range".
Proof.
  unfold NewChan, make_chan, mbind, M_bind. simpl.
  unfold make_slice, store, mret, M_ret. simpl. reflexivity.
Qed.

(** The same for every positive retention count: no call of [NewChan]
    with [retainVersions > 0] returns. *)
Lemma NewChan_positive_panics (p : option T) r h :
  0 < r → panicked (NewChan p r h) = true.
Proof.
  intros Hr. destruct (NewChan p r h) as [f h'|] eqn:Hnew; [|done].
  apply NewChan_Done in Hnew. lia.
Qed.

(** Without history, [NewChan] returns an open latch at version 0 on a
    fresh, open channel. *)
Lemma NewChan_zero (p : option T) h :
  NewChan p 0 h = Done (mkChan (Some (length h)) p false 0 0 []) (h ++ [false]).
Proof. reflexivity. Qed.

(** C8: for every initial payload and every negative retention count,
    [NewChan] panics, with the message of its explicit check; it returns no
    latch and no error value. *)
Theorem NewChan_negative_panics (p : option T) r h :
  r < 0 → NewChan p r h = Panic "retainVersions cannot be negative".
Proof.
  intros Hr. unfold NewChan, make_chan, mbind, M_bind; simpl.
  assert ((0 <? r) = false) as -> by lia.
  assert ((r <? 0) = true) as -> by lia.
  reflexivity.
Qed.

(** ** Closing *)

Lemma Close_Done_closed v w (err : option error) w' :
  Close v w = Done err w' → isClosed (self w') = true.
Proof.
  destruct w as [h [c cv b r n p]]. enter.
  destruct b; [by intros [= <- <-]|].
  destruct v; enter; unfold on_heap, close; simpl;
    (destruct c as [j|]; [|discriminate]);
    (destruct (h !! j) as [[]|]; try discriminate);
    by intros [= <- <-].
Qed.

(** A second [Close] after one that returned finds the latch closed, and
    [Read] still gives the payload the first one left. *)
Lemma Close_twice v1 v2 w (err : option error) w1 :
  Close v1 w = Done err w1 →
  (Close v2;; Read) w1 = Done (closeVal (self w1), true) w1.
Proof.
  intros Hb%Close_Done_closed. unfold mbind at 1, M_bind.
  rewrite Close_closed_eq by done.
  unfold Read, mbind, M_bind, this, mret, M_ret. by rewrite Hb.
Qed.

(** C2: on a latch that is already closed, for every payload [v], nil or
    not, [Close(v)] returns [ErrAlreadyClosed] and leaves the whole state
    as it was: payload, closed flag, version, history, the installed
    channel and the channel store.  So a [Read] after it still gives the
    payload that was there when the latch was closed. *)
Theorem Close_already_closed v w :
  isClosed (self w) = true →
  Close v w = Done (Some ErrAlreadyClosed) w ∧
  (Close v;; Read) w = Done (closeVal (self w), true) w.
Proof.
  intros Hb.
  assert (Hclose : Close v w = Done (Some ErrAlreadyClosed) w)
    by (by apply Close_closed_eq).
  split; [exact Hclose|].
  unfold mbind at 1, M_bind. rewrite Hclose.
  unfold Read, mbind, M_bind, this, mret, M_ret. by rewrite Hb.
Qed.

(** C3: [NewChan(X, 0)] then [Read()] gives [(X, false)]; after
    [Close(nil)], [Read()] gives [(X, true)]; and when the first close is
    [Close(Y)] with [Y] not nil, [Read()] gives [(Y, true)]. *)
Theorem round_trip (X : option T) h :
  result (with_new X 0 Read h) = Some (X, false) ∧
  result (with_new X 0 (Close None;; Read) h) = Some (X, true) ∧
  ∀ y : T, result (with_new X 0 (Close (Some y);; Read) h) = Some (Some y, true).
Proof.
  unfold with_new. rewrite NewChan_zero.
  assert (Hi : (h ++ [false]) !! length h = Some false)
    by (by apply list_lookup_middle).
  split; [reflexivity|]. split; [|intros y]; unfold mbind, M_bind;
    rewrite (Close_open_eq _ _ (length h)) by done; reflexivity.
Qed.

(** ** The history block *)

Lemma pushed_fifo (r : Z) p e :
  0 < r → len p ≤ r →
  pushed r p e = (if len p <? r then p else drop 1 p) ++ [e].
Proof.
  unfold pushed, append, len. intros Hr Hp.
  assert ((0 <? r) = true) as -> by lia. rewrite length_app; simpl.
  destruct (Z.ltb_spec (Z.of_nat (length p)) r) as [Hlt | Hge].
  - assert ((r <? Z.of_nat (length p + 1)) = false) as ->
      by (apply Z.ltb_ge; lia).
    done.
  - assert ((r <? Z.of_nat (length p + 1)) = true) as ->
      by (apply Z.ltb_lt; lia).
    destruct p as [|a p]; [simpl in *; lia | done].
Qed.

Lemma pushed_length (r : Z) p e :
  0 < r → len p ≤ r → len (pushed r p e) ≤ r.
Proof.
  intros Hr Hp. rewrite pushed_fifo by done. unfold len in *.
  destruct (Z.ltb_spec (Z.of_nat (length p)) r) as [Hlt | Hge];
    rewrite length_app; simpl; [lia|].
  rewrite length_drop. lia.
Qed.

Lemma pushed_last (r : Z) p e : 0 < r → last (pushed r p e) = Some e.
Proof.
  unfold pushed, append, len. intros Hr.
  assert ((0 <? r) = true) as -> by lia.
  destruct (r <? Z.of_nat (length (p ++ [e]))) eqn:Hfull.
  - destruct p as [|a p]; [|apply last_snoc].
    apply Z.ltb_lt in Hfull. simpl in Hfull. lia.
  - apply last_snoc.
Qed.

Lemma pushed_off (r : Z) p e : r ≤ 0 → pushed r p e = p.
Proof.
  unfold pushed. intros Hr. by assert ((0 <? r) = false) as -> by lia.
Qed.

(** C7: [SetAndClose(v)], for every payload [v], nil or not.  On a closed
    latch it returns [ErrAlreadyClosed] and the state is untouched.  On an
    open latch whose channel is installed and unfired it returns nil and
    has stored [v], incremented the version, recorded [(version, v)] in the
    history when history is kept (and left the history alone when it is
    not), set the closed flag and closed the channel. *)
Theorem SetAndClose_spec v w :
  (isClosed (self w) = true →
   SetAndClose v w = Done (Some ErrAlreadyClosed) w) ∧
  (isClosed (self w) = false → chan_inv w →
   ∃ w', SetAndClose v w = Done None w' ∧
     closeVal (self w') = v ∧
     version (self w') = incr (version (self w)) ∧
     past (self w') =
       pushed (retain (self w)) (past (self w))
         (mkVersionVal (incr (version (self w))) v) ∧
     (0 < retain (self w) →
      last (past (self w')) = Some (mkVersionVal (incr (version (self w))) v)) ∧
     (retain (self w) ≤ 0 → past (self w') = past (self w)) ∧
     isClosed (self w') = true ∧
     whenClosed (self w') = whenClosed (self w) ∧
     retain (self w') = retain (self w) ∧
     fired (heap w) (whenClosed (self w)) = false ∧
     fired (heap w') (whenClosed (self w')) = true).
Proof.
  split; [apply SetAndClose_closed_eq|].
  intros Hb (i & Hc & Hi). rewrite Hb in Hi.
  eexists. split; [by apply (SetAndClose_open_eq v w i)|]. simpl.
  rewrite Hc; simpl. rewrite Hi; simpl.
  rewrite list_lookup_insert_eq by (by eapply lookup_lt_Some).
  repeat split; try done.
  - apply pushed_last.
  - apply pushed_off.
Qed.

(** ** Version and history *)

(** What a call that returns has done to the latch: a call that replaces
    the payload stores its argument, increments the version and runs the
    history block; any other call leaves all three alone.  The retention
    count never changes. *)
Lemma step_self c w r w' :
  step c w = Done r w' →
  retain (self w') = retain (self w) ∧
  if mutates c (self w) then
    closeVal (self w') = payload c ∧
    version (self w') = incr (version (self w)) ∧
    past (self w') =
      pushed (retain (self w)) (past (self w))
        (mkVersionVal (incr (version (self w))) (payload c))
  else
    closeVal (self w') = closeVal (self w) ∧
    version (self w') = version (self w) ∧
    past (self w') = past (self w).
Proof.
  destruct w as [h [c0 cv b r0 n p]].
  destruct c; unfold step, mbind, M_bind, mret, M_ret;
    rewrite ?Set_eq, ?SetIfOpen_eq, ?Open_eq, ?ReOpen_eq; simpl.
  all: try (destruct b; simpl; by intros [= <- <-]).
  all: try by intros [= <- <-].
  - destruct (Close v _) as [err w1|] eqn:Hcl; [|discriminate].
    intros [= <- <-]. revert Hcl. enter.
    destruct b; [by destruct v; intros [= <- <-]|].
    destruct v; enter; unfold on_heap, close; simpl;
      (destruct c0 as [j|]; [|discriminate]);
      (destruct (h !! j) as [[]|]; try discriminate);
      by intros [= <- <-].
  - destruct (SetAndClose v _) as [err w1|] eqn:Hcl; [|discriminate].
    intros [= <- <-]. revert Hcl. enter.
    destruct b; [by intros [= <- <-]|].
    enter; unfold on_heap, close; simpl;
      (destruct c0 as [j|]; [|discriminate]);
      (destruct (h !! j) as [[]|]; try discriminate);
      by intros [= <- <-].
Qed.

Lemma incr_succ (x : Z) : int_min ≤ x < int_max → incr x = x + 1.
Proof.
  unfold incr, wrap, int_min, int_max, int_bits. simpl. intros Hx.
  rewrite Z.mod_small by lia. lia.
Qed.

(** At the top of the range the counter wraps around to the bottom. *)
Lemma incr_int_max : incr int_max = int_min.
Proof. reflexivity. Qed.

(** C5: within the lifetime the design budgets for, that is on a latch
    whose version counter has not reached the largest [int] (some
    [2^63 - 1] replacements away from [NewChan]), a call that replaces
    the payload ([Set],
    [ReOpen], and on an open latch [SetIfOpen], [SetAndClose] and [Close]
    with a payload that is not nil) leaves the version one higher, so
    strictly greater, and every other call leaves it as it was: no call
    lowers it.  And every call does return when the installed channel
    agrees with the closed flag. *)
Theorem version_monotone c w :
  int_min ≤ version (self w) < int_max →
  (∀ r w', step c w = Done r w' →
     version (self w') =
       (if mutates c (self w) then version (self w) + 1 else version (self w)) ∧
     version (self w) ≤ version (self w') ∧
     (mutates c (self w) = true → version (self w) < version (self w'))) ∧
  (chan_inv w → ∃ r w', step c w = Done r w').
Proof.
  intros Hv. split.
  - intros r w' Hstep.
    destruct (step_self _ _ _ _ Hstep) as [_ Hself].
    destruct (mutates c (self w)).
    + destruct Hself as (_ & -> & _). rewrite incr_succ by done.
      repeat split; lia.
    + destruct Hself as (_ & -> & _). repeat split; [lia | done].
  - intros Hinv.
    destruct (step_chan_inv c w Hinv) as (r & w' & Hstep & _).
    by exists r, w'.
Qed.

(** C6: on a latch that keeps history ([retain = R > 0]) and holds at most
    [R] entries, every call leaves at most [R] entries.  A call that does
    not replace the payload leaves the history as it was.  A call that
    replaces it appends the pair of the new version and the new payload at
    the end, after dropping the entry at index 0 when the history was
    full: the oldest entry stays first, the current one is last.  And
    every call does return when the installed channel agrees with the
    closed flag. *)
Theorem history_bounded_fifo c w :
  past_inv (self w) →
  (∀ r w', step c w = Done r w' →
     past_inv (self w') ∧
     retain (self w') = retain (self w) ∧
     (mutates c (self w) = false → past (self w') = past (self w)) ∧
     (mutates c (self w) = true →
      let e := mkVersionVal (version (self w')) (closeVal (self w')) in
      past (self w') =
        (if len (past (self w)) <? retain (self w)
         then past (self w) else drop 1 (past (self w))) ++ [e] ∧
      last (past (self w')) = Some e)) ∧
  (chan_inv w → ∃ r w', step c w = Done r w').
Proof.
  intros [Hr Hp]. split.
  - intros r w' Hstep.
    destruct (step_self _ _ _ _ Hstep) as [Hret Hself].
    unfold past_inv. rewrite Hret.
    destruct (mutates c (self w)).
    + destruct Hself as (-> & -> & ->).
      repeat split; try done.
      * by apply pushed_length.
      * by apply pushed_fifo.
      * by apply pushed_last.
    + destruct Hself as (_ & _ & ->). repeat split; done.
  - intros Hinv.
    destruct (step_chan_inv c w Hinv) as (r & w' & Hstep & _).
    by exists r, w'.
Qed.

(** C10: [ReadPast(d)] leaves the latch alone, returns
    [min(len(d), len(f.past))], and has overwritten that many entries at
    the front of [d] with the entries of the history from index 0 on.
    When [d] is shorter than the history, [d] ends up as the oldest
    [len(d)] entries, and what is left out is the rest of the history up
    to and including its last, most recent entry. *)
Theorem ReadPast_copies_oldest d w :
  let n := Nat.min (length d) (length (past (self w))) in
  ReadPast d w = Done (take n (past (self w)) ++ drop n d, Z.of_nat n) w ∧
  ((length d < length (past (self w)))%nat →
   ∃ rest,
     ReadPast d w = Done (take (length d) (past (self w)), len d) w ∧
     past (self w) = take (length d) (past (self w)) ++ rest ∧
     rest ≠ [] ∧
     last rest = last (past (self w))).
Proof.
  simpl. split; [reflexivity|]. intros Hlt.
  exists (drop (length d) (past (self w))).
  assert (Hrest : drop (length d) (past (self w)) ≠ []).
  { intros Hnil%(f_equal length). rewrite length_drop in Hnil. simpl in Hnil. lia. }
  repeat split.
  - unfold ReadPast, copy, mbind, M_bind, this, mret, M_ret, len; simpl.
    rewrite Nat.min_l by lia. by rewrite drop_all, app_nil_r.
  - by rewrite take_drop.
  - done.
  - rewrite <- (take_drop (length d) (past (self w))) at 2.
    destruct (drop (length d) (past (self w))) as [|x l] eqn:Hd; [done|].
    by rewrite last_app_cons.
Qed.

(** C4: in every state that a run of API calls on a latch from [NewChan]
    ends in, the installed channel has been closed exactly when the closed
    flag is set.  So no further run panics (a second [close] of a channel
    would), and when some channel is seen fired in such a state, [Read]
    reports closed in every later state in which that channel is still the
    installed one. *)
Theorem signal_fired_iff_closed w :
  reachable w →
  fired (heap w) (whenClosed (self w)) = isClosed (self w) ∧
  (∀ cs, ∃ rs w', run cs w = Done rs w') ∧
  (∀ c cs rs w',
     fired (heap w) c = true →
     run cs w = Done rs w' →
     whenClosed (self w') = c →
     Read w' = Done (closeVal (self w'), true) w').
Proof.
  intros Hinv%reachable_chan_inv. split; [by apply chan_inv_fired|]. split.
  - intros cs. destruct (run_chan_inv cs w Hinv) as (rs & w' & Hrun & _).
    by exists rs, w'.
  - intros c cs rs w' Hfired Hrun Hc.
    destruct (run_chan_inv cs w Hinv) as (rs' & w'' & Hrun' & Hinv').
    assert (w'' = w') as -> by congruence.
    destruct c as [i|]; [|done]. simpl in Hfired.
    destruct (heap w !! i) as [[]|] eqn:Hi; try done.
    pose proof (run_fired_mono _ _ _ _ _ Hrun Hi) as Hi'.
    destruct Hinv' as (j & Hj & Hcl). rewrite Hc in Hj. injection Hj as <-.
    assert (isClosed (self w') = true) as Hb by congruence.
    unfold Read, mbind, M_bind, this, mret, M_ret. by rewrite Hb.
Qed.

End ChanFacts.

(** * Properties of the lazily allocated [Loquet[T]] *)

Section LoquetFacts.

Import LazyLoquet.

Context {T : Type}.

Implicit Types (w : world T) (f : Loquet T) (v : option T) (h : chanheap).

Lemma Close_unallocated v w :
  unallocated w → Close v w = Panic "close of nil channel".
Proof.
  destruct w as [h [c cv b]]. intros [Hc Hb]; simpl in *. subst c b.
  unfold Close, mbind, M_bind, this, assign, modify, mret, M_ret; simpl.
  by destruct v.
Qed.

(** Until [WhenClosed] is called nothing allocates the channel, and
    nothing but [Close] sets the closed flag. *)
Lemma step_unallocated c w r w' :
  unallocated w → is_WhenClosed c = false →
  step c w = Done r w' → unallocated w'.
Proof.
  destruct w as [h [c0 cv b]]. intros [Hc Hb]; simpl in *. subst c0 b.
  destruct c; try done; intros _; unfold step, mbind, M_bind.
  - by rewrite Close_unallocated.
  - by intros [= <- <-].
  - by intros [= <- <-].
  - by intros [= <- <-].
Qed.

Lemma run_Close_unallocated cs v : ∀ w,
  unallocated w →
  existsb is_WhenClosed cs = false →
  panicked (run (cs ++ [CallClose v]) w) = true.
Proof.
  induction cs as [|c cs IH]; intros w Hw; simpl.
  - intros _. unfold mbind, M_bind, step.
    by rewrite (Close_unallocated v w Hw).
  - intros [Hc Hcs]%orb_false_elim. unfold mbind, M_bind.
    destruct (step c w) as [r w1|] eqn:Hstep; [|done].
    pose proof (step_unallocated _ _ _ _ Hw Hc Hstep) as Hw1.
    specialize (IH w1 Hw1 Hcs). unfold mbind, M_bind in IH.
    by destruct (run (cs ++ [CallClose v]) w1).
Qed.

(** C9: on a latch fresh from [NewLoquet], [Close(v)] closes the nil
    channel and panics, for every payload [v]; and a run of calls on such
    a latch that ends in a [Close] gets through without a panic only if
    [WhenClosed] was called somewhere before that [Close]. *)
Theorem Close_before_WhenClosed_panics (p v : option T) h :
  with_new p (Close v) h = Panic "close of nil channel" ∧
  ∀ cs, panicked (with_new p (run (cs ++ [CallClose v])) h) = false →
        CallWhenClosed ∈ cs.
Proof.
  split.
  - unfold with_new, NewLoquet, mret, M_ret. by apply Close_unallocated.
  - intros cs Hrun. unfold with_new, NewLoquet, mret, M_ret in Hrun.
    destruct (existsb is_WhenClosed cs) eqn:Hcs.
    + apply existsb_exists in Hcs as (c & Hin & Hc).
      destruct c; try done. by apply list_elem_of_In.
    + rewrite run_Close_unallocated in Hrun; done.
Qed.

(** Once [WhenClosed] has allocated the channel, the first [Close]
    closes it and returns. *)
Lemma Close_after_WhenClosed (p v : option T) h :
  panicked (with_new p (WhenClosed;; Close v) h) = false.
Proof.
  assert (Hi : (h ++ [false]) !! length h = Some false)
    by (by apply list_lookup_middle).
  unfold with_new, NewLoquet, WhenClosed, Close, on_heap, make_chan, close,
    mbind, M_bind, this, assign, modify, mret, M_ret; simpl.
  destruct v; simpl; by rewrite Hi.
Qed.

End LoquetFacts.

(** * The theorems at work on concrete latches *)

Section ChanInstances.

Import ChanLatch Examples.

Lemma open_latch_inv : chan_inv open_latch.
Proof. by exists 0%nat. Qed.

Lemma history_latch_inv : chan_inv history_latch.
Proof. by exists 0%nat. Qed.

Lemma closed_latch_reachable : reachable closed_latch.
Proof.
  by exists [], None, 0, [CallClose (Some 1%nat)], [RetError None].
Qed.

(** A second [Close], with another payload, on a closed latch. *)
Lemma Close_already_closed_witness :
  isClosed (self closed_latch) = true ∧
  Close (Some 5%nat) closed_latch = Done (Some ErrAlreadyClosed) closed_latch.
Proof.
  split; [reflexivity|].
  exact (proj1 (Close_already_closed (Some 5%nat) closed_latch eq_refl)).
Defined.

(** The invariant on the latch left by [NewChan(nil, 0); Close(&1)]. *)
Lemma signal_fired_iff_closed_witness :
  reachable closed_latch ∧
  fired (heap closed_latch) (whenClosed (self closed_latch)) =
    isClosed (self closed_latch).
Proof.
  split; [exact closed_latch_reachable|].
  exact (proj1 (signal_fired_iff_closed closed_latch closed_latch_reachable)).
Defined.

(** [Set] on a fresh latch takes the version from 0 to 1. *)
Lemma version_monotone_witness :
  int_min ≤ version (self open_latch) < int_max ∧
  ∃ r w', step (CallSet (Some 2%nat)) open_latch = Done r w' ∧
          version (self w') = 1.
Proof.
  assert (Hv : int_min ≤ version (self open_latch) < int_max) by done.
  split; [exact Hv|].
  destruct (version_monotone (CallSet (Some 2%nat)) open_latch Hv)
    as [Hmono Hret].
  destruct (Hret open_latch_inv) as (r & w' & Hstep).
  exists r, w'. split; [exact Hstep|].
  exact (proj1 (Hmono r w' Hstep)).
Defined.

(** [Set] on a latch whose two history slots are taken. *)
Lemma history_bounded_fifo_witness :
  past_inv (self history_latch) ∧
  ∃ r w', step (CallSet (Some 3%nat)) history_latch = Done r w' ∧
          past (self w') =
            [mkVersionVal 1 (Some 2%nat);
             mkVersionVal (version (self w')) (closeVal (self w'))].
Proof.
  assert (Hpast : past_inv (self history_latch)) by (by split).
  split; [exact Hpast|].
  destruct (history_bounded_fifo (CallSet (Some 3%nat)) history_latch Hpast)
    as [Hhist Hret].
  destruct (Hret history_latch_inv) as (r & w' & Hstep).
  exists r, w'. split; [exact Hstep|].
  destruct (Hhist r w' Hstep) as (_ & _ & _ & Hmut).
  exact (proj1 (Hmut eq_refl)).
Defined.

(** [SetAndClose(nil)] on a closed and on an open latch. *)
Lemma SetAndClose_spec_witness :
  SetAndClose None closed_latch = Done (Some ErrAlreadyClosed) closed_latch ∧
  ∃ w', SetAndClose None open_latch = Done None w' ∧
        closeVal (self w') = None ∧ isClosed (self w') = true.
Proof.
  split.
  - by apply (proj1 (SetAndClose_spec None closed_latch)).
  - destruct (proj2 (SetAndClose_spec None open_latch) eq_refl open_latch_inv)
      as (w' & Hcall & Hval & _ & _ & _ & _ & Hclosed & _).
    exists w'. by repeat split.
Defined.

(** [NewChan(&1, -1)]. *)
Lemma NewChan_negative_panics_witness :
  -1 < 0 ∧
  NewChan (Some 1%nat) (-1) [] = Panic "retainVersions cannot be negative".
Proof.
  split; [done|]. by apply NewChan_negative_panics.
Defined.

(** [ReadPast] into a slice of one entry, from a history of two. *)
Lemma ReadPast_copies_oldest_witness :
  ReadPast [mkVersionVal 7 None] history_latch =
  Done ([mkVersionVal 0 (Some 1%nat)], 1) history_latch.
Proof.
  destruct (proj2 (ReadPast_copies_oldest [mkVersionVal 7 None] history_latch))
    as (rest & Hcall & _); [simpl; lia|].
  exact Hcall.
Defined.

End ChanInstances.

Section LoquetInstances.

Import LazyLoquet.

(** [NewLoquet(nil); WhenClosed(); Read(); Close(nil)] gets through. *)
Lemma Close_before_WhenClosed_panics_witness :
  panicked (with_new (@None nat)
              (run ([CallWhenClosed; CallRead] ++ [CallClose None])) []) = false ∧
  CallWhenClosed ∈ [CallWhenClosed; @CallRead nat].
Proof.
  split; [reflexivity|].
  by apply (proj2 (Close_before_WhenClosed_panics None None [])).
Defined.

End LoquetInstances.

(** * More on [Chan[T]]: how the methods compose *)

(** Unfolds the monad around the calls of a method. *)
Ltac monad :=
  unfold mbind, M_bind, mret, M_ret, this, assign, modify; simpl.

Section ChanCompose.

Import ChanLatch ChanCalls.

Context {T : Type}.

Implicit Types (w : world T) (f : Chan T) (v : option T) (h : chanheap).

Lemma run_Close_closed (vs : list (option T)) w :
  isClosed (self w) = true →
  run (CallClose <$> vs) w =
  Done ((λ _, RetError (Some ErrAlreadyClosed)) <$> vs) w.
Proof.
  intros Hb. induction vs as [|v vs IH]; [reflexivity|].
  rewrite !fmap_cons, run_cons. unfold step at 1. monad.
  rewrite Close_closed_eq by done. by rewrite IH.
Qed.

(** X1: of a series of [Close] calls on an open latch only the first
    takes effect.  It returns nil, closes the channel and stores its
    payload unless that is nil; every later one returns
    [ErrAlreadyClosed], whatever payload it brings. *)
Theorem first_Close_wins v (vs : list (option T)) w :
  chan_inv w →
  isClosed (self w) = false →
  ∃ w', run (CallClose v :: (CallClose <$> vs)) w =
          Done (RetError None ::
                ((λ _, RetError (Some ErrAlreadyClosed)) <$> vs)) w' ∧
        closeVal (self w') =
          match v with Some _ => v | None => closeVal (self w) end ∧
        isClosed (self w') = true ∧
        fired (heap w') (whenClosed (self w')) = true.
Proof.
  intros (i & Hc & Hi) Hb. rewrite Hb in Hi.
  eexists. rewrite run_cons. unfold step at 1. monad.
  rewrite (Close_open_eq v w i) by done.
  rewrite run_Close_closed by (by destruct v).
  split; [reflexivity|].
  assert (Hlt : (i < length (heap w))%nat) by (by eapply lookup_lt_Some).
  destruct v; simpl; rewrite Hc; simpl;
    by rewrite list_lookup_insert_eq.
Qed.

(** X2: [Close] with a payload that is not nil is [SetAndClose] with that
    payload, on every latch: same result, same state afterwards. *)
Theorem Close_payload_is_SetAndClose (y : T) w :
  Close (Some y) w = SetAndClose (Some y) w.
Proof.
  destruct w as [h [c cv b r n p]].
  unfold Close, SetAndClose. monad. destruct b; [reflexivity|].
  rewrite !replace_eq. reflexivity.
Qed.

(** X3: on an open latch [SetAndClose(v)] is [Set(v)] followed by
    [Close(nil)]. *)
Theorem SetAndClose_is_Set_then_Close v w :
  isClosed (self w) = false →
  SetAndClose v w = (Set_ v;; Close None) w.
Proof.
  destruct w as [h [c cv b r n p]]; simpl. intros ->.
  unfold SetAndClose, Set_, Close. monad. rewrite !replace_eq. reflexivity.
Qed.

(** X4: [ReOpen(v)] is [Set(v)] followed by [Open()], on every latch. *)
Theorem ReOpen_is_Set_then_Open v w :
  ReOpen v w = (Set_ v;; Open) w.
Proof.
  destruct w as [h [c cv b r n p]].
  unfold ReOpen, Set_, Open. monad. rewrite !replace_eq. reflexivity.
Qed.

Lemma step_quiet_closed (c : call T) w :
  isClosed (self w) = true → quiet c = true → ∃ r, step c w = Done r w.
Proof.
  destruct w as [h [c0 cv b r0 n p]]; simpl. intros -> Hq.
  destruct c; try discriminate; by eexists.
Qed.

(** X5: a closed latch is frozen for every call but [Set], [Open] and
    [ReOpen]: a run of [Close], [SetAndClose], [SetIfOpen] and the reads
    returns and leaves payload, flag, version, history and channel as they
    were. *)
Theorem closed_latch_frozen (cs : list (call T)) w :
  isClosed (self w) = true →
  forallb quiet cs = true →
  ∃ rs, run cs w = Done rs w.
Proof.
  intros Hb. induction cs as [|c cs IH]; simpl; [by exists []|].
  intros [Hq Hcs]%andb_prop.
  destruct (step_quiet_closed c w Hb Hq) as [r Hstep].
  destruct (IH Hcs) as [rs Hrun].
  exists (r :: rs). monad. by rewrite Hstep, Hrun.
Qed.

End ChanCompose.

(** * More on [Chan[T]]: the channel, the version, the history *)

Section ChanFrames.

Import ChanLatch ChanCalls.

Context {T : Type}.

Implicit Types (w : world T) (f : Chan T) (v : option T) (h : chanheap).

(** X6: [Open()] on an open latch does nothing.  On a closed latch it
    installs a channel that was not in the store before and is not
    closed, clears the closed flag, and leaves payload, version and
    history alone; the channel installed until then stays closed. *)
Theorem Open_installs_fresh_channel w :
  (isClosed (self w) = false → Open w = Done () w) ∧
  (isClosed (self w) = true → chan_inv w →
   ∃ i w', whenClosed (self w) = Some i ∧
     Open w = Done () w' ∧
     whenClosed (self w') = Some (length (heap w)) ∧
     i ≠ length (heap w) ∧
     fired (heap w') (whenClosed (self w')) = false ∧
     fired (heap w') (Some i) = true ∧
     isClosed (self w') = false ∧
     closeVal (self w') = closeVal (self w) ∧
     version (self w') = version (self w) ∧
     past (self w') = past (self w)).
Proof.
  rewrite Open_eq. split; [by intros ->|].
  intros Hb (i & Hc & Hi). rewrite Hb in *.
  assert (Hlt : (i < length (heap w))%nat) by (by eapply lookup_lt_Some).
  exists i, (reopened (self w) (heap w)). unfold reopened; simpl.
  rewrite list_lookup_middle by done.
  rewrite (lookup_app_l_Some _ _ _ _ Hi). simpl.
  repeat split; try done. lia.
Qed.

(** What a call that returns does to the closed flag, the installed
    channel and the size of the store. *)
Lemma step_signal (c : call T) w r w' :
  step c w = Done r w' →
  match c with
  | CallClose _ | CallSetAndClose _ =>
      isClosed (self w') = true ∧ whenClosed (self w') = whenClosed (self w) ∧
      length (heap w') = length (heap w)
  | CallOpen | CallReOpen _ =>
      isClosed (self w') = false ∧
      if isClosed (self w)
      then whenClosed (self w') = Some (length (heap w)) ∧
           length (heap w') = S (length (heap w))
      else whenClosed (self w') = whenClosed (self w) ∧ heap w' = heap w
  | _ =>
      isClosed (self w') = isClosed (self w) ∧
      whenClosed (self w') = whenClosed (self w) ∧ heap w' = heap w
  end.
Proof.
  destruct w as [h [c0 cv b r0 n p]].
  destruct c; unfold step, mbind, M_bind, mret, M_ret;
    rewrite ?Set_eq, ?SetIfOpen_eq, ?Open_eq, ?ReOpen_eq; simpl.
  all: try (destruct b; simpl; intros [= <- <-]; simpl;
            rewrite ?length_app; simpl; repeat split; (done || lia)).
  all: try by intros [= <- <-].
  - destruct (Close v _) as [err w1|] eqn:Hcl; [|discriminate].
    intros [= <- <-]. revert Hcl. unfold Close. monad.
    destruct b; [by intros [= <- <-]|].
    destruct v; monad; rewrite ?replace_eq; simpl;
      unfold on_heap, close; simpl;
      (destruct c0 as [j|]; [|discriminate]);
      (destruct (h !! j) as [[]|]; try discriminate);
      intros [= <- <-]; simpl; by rewrite length_insert.
  - destruct (SetAndClose v _) as [err w1|] eqn:Hcl; [|discriminate].
    intros [= <- <-]. revert Hcl. unfold SetAndClose. monad.
    destruct b; [by intros [= <- <-]|].
    rewrite ?replace_eq; simpl; unfold on_heap, close; simpl;
      (destruct c0 as [j|]; [|discriminate]);
      (destruct (h !! j) as [[]|]; try discriminate);
      intros [= <- <-]; simpl; by rewrite length_insert.
Qed.

(** X7: the installed channel changes only when [Open] or [ReOpen] finds
    the latch closed, and then to a channel made in that call; after every
    other call [WhenClosed()] returns the channel it returned before. *)
Theorem handle_replaced_only_by_reopen (c : call T) w r w' :
  step c w = Done r w' →
  whenClosed (self w') = whenClosed (self w) ∨
  (reopens c = true ∧ isClosed (self w) = true ∧
   isClosed (self w') = false ∧
   whenClosed (self w') = Some (length (heap w))).
Proof.
  intros Hsig%step_signal.
  destruct c; simpl in Hsig; try (left; tauto);
    destruct (isClosed (self w)); try (left; tauto);
    right; by repeat split; try tauto.
Qed.

(** X8: [Set], [SetIfOpen], [Read], [ReadVersion], [ReadPast] and
    [WhenClosed] always return, on any latch, and send no signal: the
    closed flag, the installed channel and every channel of the store are
    as before.  In particular [Set] on a closed latch leaves it closed. *)
Theorem silent_calls_send_no_signal (c : call T) w :
  silent c = true →
  ∃ r w', step c w = Done r w' ∧
    heap w' = heap w ∧
    isClosed (self w') = isClosed (self w) ∧
    whenClosed (self w') = whenClosed (self w).
Proof.
  intros Hs.
  assert (Hret : ∃ r w', step c w = Done r w').
  { destruct c; try discriminate;
      unfold step, mbind, M_bind, mret, M_ret;
      rewrite ?Set_eq, ?SetIfOpen_eq; by eexists _, _. }
  destruct Hret as (r & w' & Hstep). exists r, w'. split; [done|].
  apply step_signal in Hstep. destruct c; try discriminate; tauto.
Qed.

(** X9: [Set(a)] returns the payload it replaces, so a second [Set]
    returns [a]; a [Read] after [Set(a)] gives [a] with the closed flag
    untouched; a [Read] after [SetIfOpen(a)] gives [a] on an open latch
    and the old payload on a closed one. *)
Theorem Set_then_Read (a b : option T) w :
  result (Set_ a w) = Some (closeVal (self w)) ∧
  result ((Set_ a;; Set_ b) w) = Some a ∧
  result ((Set_ a;; Read) w) = Some (a, isClosed (self w)) ∧
  result ((SetIfOpen a;; Read) w) =
    Some (if isClosed (self w) then closeVal (self w) else a,
          isClosed (self w)).
Proof.
  repeat split; unfold mbind, M_bind;
    rewrite ?Set_eq, ?SetIfOpen_eq; try reflexivity.
  destruct w as [h [c cv [] r n p]]; reflexivity.
Qed.

(** X10: over a run of [n] calls that returns, the version never goes
    down and goes up by at most [n], as long as the counter cannot reach
    the largest [int] on the way. *)
Theorem run_version_bounds (cs : list (call T)) : ∀ w rs w',
  run cs w = Done rs w' →
  int_min ≤ version (self w) →
  version (self w) + len cs ≤ int_max →
  version (self w) ≤ version (self w') ≤ version (self w) + len cs.
Proof.
  unfold len. induction cs as [|c cs IH]; intros w rs w'.
  - intros [= <- <-]. simpl. lia.
  - rewrite run_cons.
    destruct (step c w) as [r w1|] eqn:Hstep; [|discriminate].
    destruct (run cs w1) as [rs1 w2|] eqn:Hrun; [|discriminate].
    intros [= <- <-] Hlo Hhi. rewrite length_cons in *.
    destruct (step_self _ _ _ _ Hstep) as [_ Hself].
    assert (Hv : version (self w1) = version (self w) ∨
                 version (self w1) = version (self w) + 1).
    { destruct (mutates c (self w)).
      - right. destruct Hself as (_ & -> & _). apply incr_succ. lia.
      - left. tauto. }
    specialize (IH w1 rs1 w2 Hrun). lia.
Qed.

(** A fired channel stays fired over a call. *)
Lemma fired_step (c : call T) w r w' (k : chan) :
  step c w = Done r w' → fired (heap w) k = true → fired (heap w') k = true.
Proof.
  intros Hstep. destruct k as [i|]; [|done]. simpl.
  destruct (heap w !! i) as [[]|] eqn:Hi; try done. intros _.
  by rewrite (step_fired_mono _ _ _ _ _ Hstep Hi).
Qed.

(** X11: a channel that has fired stays fired through every later call,
    [Open] and [ReOpen] included: who still holds the channel of an
    earlier episode finds it closed for good. *)
Theorem stale_handle_stays_fired (cs : list (call T)) (k : chan) : ∀ w rs w',
  run cs w = Done rs w' →
  fired (heap w) k = true →
  fired (heap w') k = true.
Proof.
  induction cs as [|c cs IH]; intros w rs w'.
  - by intros [= <- <-].
  - rewrite run_cons.
    destruct (step c w) as [r w1|] eqn:Hstep; [|discriminate].
    destruct (run cs w1) as [rs1 w2|] eqn:Hrun; [|discriminate].
    intros [= <- <-] Hk. eapply IH; [done|]. by eapply fired_step.
Qed.

End ChanFrames.

Section ChanHistory.

Import ChanLatch ChanCalls.

Context {T : Type}.

Implicit Types (w : world T) (f : Chan T) (v : option T) (h : chanheap).

Lemma seqZ_snoc (m n : Z) : 0 ≤ n → seqZ m n ++ [m + n] = seqZ m (n + 1).
Proof.
  intros Hn. rewrite seqZ_app by lia.
  rewrite (seqZ_cons (m + n)) by lia.
  assert (seqZ (Z.succ (m + n)) (Z.pred 1) = []) as -> by (by apply seqZ_nil).
  reflexivity.
Qed.

Lemma consecutive_pushed (r v0 : Z) (p : list (VersionVal T)) (x : option T) :
  0 < r →
  Version <$> p = seqZ (v0 - len p + 1) (len p) →
  let p' := pushed r p (mkVersionVal (v0 + 1) x) in
  Version <$> p' = seqZ (v0 + 1 - len p' + 1) (len p').
Proof.
  intros Hr Hp. unfold pushed, append.
  assert ((0 <? r) = true) as -> by lia.
  assert (Hsnoc : Version <$> p ++ [mkVersionVal (v0 + 1) x] =
                  seqZ (v0 - len p + 1) (len p + 1)).
  { rewrite fmap_app, Hp. simpl.
    replace (v0 + 1) with (v0 - len p + 1 + len p) at 1 by lia.
    apply seqZ_snoc. unfold len. lia. }
  assert (Hlen : len (p ++ [mkVersionVal (v0 + 1) x]) = len p + 1).
  { unfold len. rewrite length_app. simpl. lia. }
  destruct (r <? len (p ++ [mkVersionVal (v0 + 1) x])) eqn:Hfull; simpl.
  - apply Z.ltb_lt in Hfull. rewrite Hlen in Hfull.
    assert (Hlen' : len (drop 1 (p ++ [mkVersionVal (v0 + 1) x])) = len p).
    { unfold len in *. rewrite length_drop, length_app. simpl. lia. }
    rewrite Hlen', fmap_drop, Hsnoc.
    rewrite seqZ_cons by lia. rewrite skipn_cons, drop_0. f_equal; lia.
  - rewrite Hlen, Hsnoc. f_equal. lia.
Qed.

(** X12: on a latch that keeps history, if the versions in the history
    count up by one to the current version, they still do after any call,
    as long as the counter is below the largest [int]: the history has no
    gaps, and entry [i] of [k] carries version [version - (k - 1 - i)]. *)
Theorem history_versions_consecutive (c : call T) w r w' :
  0 < retain (self w) →
  consecutive (self w) →
  int_min ≤ version (self w) < int_max →
  step c w = Done r w' →
  consecutive (self w').
Proof.
  intros Hr Hcons Hv Hstep. unfold consecutive in *.
  destruct (step_self _ _ _ _ Hstep) as [_ Hself].
  destruct (mutates c (self w)).
  - destruct Hself as (_ & -> & ->). rewrite incr_succ by done.
    by apply consecutive_pushed.
  - destruct Hself as (_ & -> & ->). done.
Qed.

End ChanHistory.

Section ChanScenario.

Import ChanLatch ChanCalls.

Context {T : Type}.

(** Reduces the field selections, and nothing else. *)
Ltac proj :=
  cbn [heap self whenClosed closeVal isClosed retain version past fst snd
       set_whenClosed set_isClosed replaced].
Ltac lift :=
  unfold mbind, M_bind, mret, M_ret, this, assign, modify; proj.

(** X13: closing, reopening and closing again.  After [NewChan(a, 0)] and
    [Close(b)], [Read] gives [(b, true)]; [ReOpen(c)] installs a second
    channel, which has not fired while the first one stays fired, and
    [Read] gives [(c, false)]; [Close(d)] then fires the second channel,
    [Read] gives [(d, true)], and the version stands at 3. *)
Theorem reopen_scenario (a c : option T) (b d : T) h :
  ∃ w1 w2,
    with_new a 0
      (run [CallClose (Some b); CallRead; CallWhenClosed;
            CallReOpen c; CallWhenClosed; CallRead]) h =
    Done [RetError None; RetRead (Some b) true; RetChan (Some (length h));
          RetNothing; RetChan (Some (S (length h))); RetRead c false] w1 ∧
    fired (heap w1) (Some (length h)) = true ∧
    fired (heap w1) (Some (S (length h))) = false ∧
    run [CallClose (Some d); CallRead] w1 =
    Done [RetError None; RetRead (Some d) true] w2 ∧
    fired (heap w2) (Some (S (length h))) = true ∧
    version (self w2) = 3.
Proof.
  set (n := length h).
  assert (H1 : (h ++ [false]) !! n = Some false)
    by (by apply list_lookup_middle).
  assert (E1 : <[n:=true]> (h ++ [false]) = h ++ [true]).
  { unfold n. rewrite insert_app_r_alt by done. by rewrite Nat.sub_diag. }
  assert (L1 : length (h ++ [true]) = S n)
    by (rewrite length_app; simpl; lia).
  assert (H1' : (h ++ [true]) !! n = Some true)
    by (by apply list_lookup_middle).
  assert (H2 : ((h ++ [true]) ++ [false]) !! S n = Some false)
    by (rewrite <- L1; by apply list_lookup_middle).
  assert (E2 : <[S n:=true]> ((h ++ [true]) ++ [false]) =
               (h ++ [true]) ++ [true]).
  { rewrite <- L1. rewrite insert_app_r_alt by done. by rewrite Nat.sub_diag. }
  assert (H2' : ((h ++ [true]) ++ [true]) !! S n = Some true)
    by (rewrite <- L1; by apply list_lookup_middle).
  eexists _, _. unfold with_new. rewrite NewChan_zero. fold n.
  split.
  { rewrite run_cons. unfold step at 1. lift.
    rewrite (Close_open_eq _ _ n) by done. proj. rewrite E1.
    rewrite run_cons. unfold step at 1, Read. lift.
    rewrite run_cons. unfold step at 1, WhenClosed. lift.
    rewrite run_cons. unfold step at 1. lift. rewrite ReOpen_eq. proj.
    unfold reopened. proj. rewrite L1.
    rewrite run_cons. unfold step at 1, WhenClosed. lift.
    rewrite run_cons. unfold step at 1, Read. lift.
    reflexivity. }
  proj. split.
  { unfold fired. by rewrite (lookup_app_l_Some _ _ _ _ H1'). }
  split.
  { unfold fired. by rewrite H2. }
  split.
  { rewrite run_cons. unfold step at 1. lift.
    rewrite (Close_open_eq _ _ (S n)) by done. proj. rewrite E2.
    rewrite run_cons. unfold step at 1, Read. lift.
    reflexivity. }
  proj. split.
  { unfold fired. by rewrite H2'. }
  reflexivity.
Qed.

End ChanScenario.

(** * More on the lazily allocated [Loquet[T]] *)

Section LazyMore.

Import LazyLoquet LazyShape.

Context {T : Type}.

Implicit Types (w : world T) (f : Loquet T) (v : option T) (h : chanheap).

Lemma lazy_WhenClosed_eq w :
  WhenClosed w =
  match ch (self w) with
  | None =>
      Done (Some (length (heap w)))
        (mkWorld (heap w ++ [false]) (set_ch (Some (length (heap w))) (self w)))
  | Some i => Done (Some i) w
  end.
Proof. destruct w as [h [[i|] cv b]]; reflexivity. Qed.

Lemma lazy_Close_eq v w i :
  ch (self w) = Some i →
  heap w !! i = Some (isClosed (self w)) →
  Close v w =
  if isClosed (self w) then Done () w
  else Done ()
         (mkWorld (<[i:=true]> (heap w))
            (match v with
             | Some _ => set_closeVal v (set_isClosed true (self w))
             | None => set_isClosed true (self w)
             end)).
Proof.
  destruct w as [h [c cv b]]; simpl. intros -> Hi.
  unfold Close. monad. destruct b; [reflexivity|].
  destruct v; monad; unfold on_heap, close; simpl; by rewrite Hi.
Qed.

(** X14: [WhenClosed()] never returns nil; it makes the channel on the
    first call only, and a second call returns the same channel and
    changes nothing.  Payload and closed flag are never touched. *)
Theorem lazy_WhenClosed_idempotent w :
  ∃ i w1,
    WhenClosed w = Done (Some i) w1 ∧
    WhenClosed w1 = Done (Some i) w1 ∧
    closeVal (self w1) = closeVal (self w) ∧
    isClosed (self w1) = isClosed (self w) ∧
    (ch (self w) ≠ None → w1 = w).
Proof.
  rewrite lazy_WhenClosed_eq. destruct (ch (self w)) as [i|] eqn:Hc.
  - exists i, w. rewrite lazy_WhenClosed_eq, Hc. done.
  - eexists _, _. split; [reflexivity|]. by rewrite lazy_WhenClosed_eq.
Qed.

Lemma lazy_step_inv (c : call T) w :
  chan_inv w →
  ∃ r w', step c w = Done r w' ∧ chan_inv w' ∧ ch (self w') = ch (self w).
Proof.
  intros (i & Hc & Hi).
  assert (Hlt : (i < length (heap w))%nat) by (by eapply lookup_lt_Some).
  destruct c; unfold step, mbind at 1, M_bind.
  - rewrite (lazy_Close_eq v w i) by done.
    destruct (isClosed (self w)) eqn:Hb.
    + eexists _, _. split; [reflexivity|]. split; [|done].
      exists i. by rewrite Hb.
    + eexists _, _. split; [reflexivity|].
      split; [|by destruct v].
      exists i. destruct v; simpl; by rewrite list_lookup_insert_eq.
  - eexists _, _. split; [reflexivity|]. split; [|done]. by exists i.
  - unfold SetIfOpen. monad. destruct (isClosed (self w)) eqn:Hb;
      (eexists _, _; split; [reflexivity|]; split; [|done]);
      exists i; simpl; by rewrite ?Hb.
  - eexists _, _. split; [reflexivity|]. split; [|done]. by exists i.
  - rewrite lazy_WhenClosed_eq, Hc.
    eexists _, _. split; [reflexivity|]. split; [|done]. by exists i.
Qed.

Lemma lazy_run_inv (cs : list (call T)) : ∀ w,
  chan_inv w →
  ∃ rs w', run cs w = Done rs w' ∧ chan_inv w' ∧ ch (self w') = ch (self w).
Proof.
  induction cs as [|c cs IH]; intros w Hw.
  - by exists [], w.
  - destruct (lazy_step_inv c w Hw) as (r & w1 & Hstep & Hw1 & Hc1).
    destruct (IH w1 Hw1) as (rs & w2 & Hrun & Hw2 & Hc2).
    exists (r :: rs), w2. simpl. unfold mbind, M_bind.
    rewrite Hstep, Hrun. split; [done|]. split; [done | congruence].
Qed.

(** X15: when [WhenClosed()] is the first call on a latch from
    [NewLoquet], no run of calls after it panics: [Close] may then be
    called any number of times.  The channel made by that first call
    stays installed and is closed exactly when the latch is. *)
Theorem lazy_WhenClosed_first_never_panics (p : option T) (cs : list (call T)) h :
  ∃ rs w',
    with_new p (run (CallWhenClosed :: cs)) h = Done rs w' ∧
    ch (self w') = Some (length h) ∧
    fired (heap w') (ch (self w')) = isClosed (self w').
Proof.
  set (w1 := mkWorld (h ++ [false]) (mkLoquet (Some (length h)) p false)).
  assert (Hw1 : chan_inv w1).
  { exists (length h). split; [done|]. by apply list_lookup_middle. }
  destruct (lazy_run_inv cs w1 Hw1) as (rs & w' & Hrun & (i & Hc & Hi) & Hch).
  exists (RetChan (Some (length h)) :: rs), w'.
  split; [|split; [done|]].
  - unfold with_new, NewLoquet, mret, M_ret.
    change (run (CallWhenClosed :: cs)) with
      (r ← step CallWhenClosed; rs ← run cs; mret (M:=M (world T)) (r :: rs)).
    unfold step, mbind, M_bind, mret, M_ret.
    rewrite lazy_WhenClosed_eq. unfold set_ch. simpl.
    unfold w1 in Hrun. by rewrite Hrun.
  - rewrite Hc. simpl. by rewrite Hi.
Qed.

Lemma lazy_step_closed (c : call T) w r w' :
  step c w = Done r w' → isClosed (self w) = true → isClosed (self w') = true.
Proof.
  destruct w as [h [c0 cv b]]; simpl. intros Hstep ->. revert Hstep.
  destruct c; unfold step, mbind, M_bind;
    rewrite ?lazy_WhenClosed_eq; simpl;
    try destruct c0; simpl; by intros [= <- <-].
Qed.

(** X16: a [Loquet] only ever goes from open to closed: once the closed
    flag is set, it is set after every run of calls. *)
Theorem lazy_closed_is_final (cs : list (call T)) : ∀ w rs w',
  run cs w = Done rs w' →
  isClosed (self w) = true →
  isClosed (self w') = true.
Proof.
  induction cs as [|c cs IH]; intros w rs w'; simpl.
  - by intros [= <- <-].
  - unfold mbind at 1, M_bind.
    destruct (step c w) as [r w1|] eqn:Hstep; [|discriminate].
    unfold mbind at 1, M_bind.
    destruct (run cs w1) as [rs1 w2|] eqn:Hrun; [|discriminate].
    intros [= <- <-] Hb. eapply IH; [done|]. by eapply lazy_step_closed.
Qed.

(** X17: with the channel allocated, the first [Close] decides: after
    [Close(a)] and [Close(b)], [Read] gives the closed flag and the
    payload [a], or the one from [NewLoquet] when [a] is nil; [b] is
    ignored. *)
Theorem lazy_first_Close_wins (X a b : option T) h :
  result (with_new X (WhenClosed;; Close a;; Close b;; Read) h) =
  Some (match a with Some _ => a | None => X end, true).
Proof.
  assert (Hi : (h ++ [false]) !! length h = Some false)
    by (by apply list_lookup_middle).
  unfold with_new, NewLoquet, mret, M_ret, mbind, M_bind.
  rewrite lazy_WhenClosed_eq. unfold set_ch. simpl.
  rewrite (lazy_Close_eq a _ (length h)) by done. simpl.
  erewrite (lazy_Close_eq b _ (length h)).
  - by destruct a.
  - by destruct a.
  - destruct a; simpl; apply list_lookup_insert_eq;
      rewrite length_app; simpl; lia.
Qed.

End LazyMore.

(** * The [Loquet[T]] whose constructor makes the channel *)

Section EagerMore.

Import EagerLoquet.

Context {T : Type}.

Implicit Types (w : world T) (f : Loquet T) (v : option T) (h : chanheap).

Lemma eager_Close_eq v w i :
  ch (self w) = Some i →
  heap w !! i = Some (isClosed (self w)) →
  Close v w =
  if isClosed (self w) then Done () w
  else Done ()
         (mkWorld (<[i:=true]> (heap w))
            (match v with
             | Some _ => set_closeVal v (set_isClosed true (self w))
             | None => set_isClosed true (self w)
             end)).
Proof.
  destruct w as [h [c cv b]]; simpl. intros -> Hi.
  unfold Close. monad. destruct b; [reflexivity|].
  destruct v; monad; unfold on_heap, close; simpl; by rewrite Hi.
Qed.

Lemma eager_step_inv (c : call T) w :
  chan_inv w →
  ∃ r w', step c w = Done r w' ∧ chan_inv w' ∧ ch (self w') = ch (self w).
Proof.
  intros (i & Hc & Hi).
  assert (Hlt : (i < length (heap w))%nat) by (by eapply lookup_lt_Some).
  destruct c; unfold step, mbind at 1, M_bind.
  - rewrite (eager_Close_eq v w i) by done.
    destruct (isClosed (self w)) eqn:Hb.
    + eexists _, _. split; [reflexivity|]. split; [|done].
      exists i. by rewrite Hb.
    + eexists _, _. split; [reflexivity|].
      split; [|by destruct v].
      exists i. destruct v; simpl; by rewrite list_lookup_insert_eq.
  - eexists _, _. split; [reflexivity|]. split; [|done]. by exists i.
  - eexists _, _. split; [reflexivity|]. split; [|done]. by exists i.
  - eexists _, _. split; [reflexivity|]. split; [|done]. by exists i.
Qed.

Lemma eager_run_inv (cs : list (call T)) : ∀ w,
  chan_inv w →
  ∃ rs w', run cs w = Done rs w' ∧ chan_inv w' ∧ ch (self w') = ch (self w).
Proof.
  induction cs as [|c cs IH]; intros w Hw.
  - by exists [], w.
  - destruct (eager_step_inv c w Hw) as (r & w1 & Hstep & Hw1 & Hc1).
    destruct (IH w1 Hw1) as (rs & w2 & Hrun & Hw2 & Hc2).
    exists (r :: rs), w2. simpl. unfold mbind, M_bind.
    rewrite Hstep, Hrun. split; [done|]. split; [done | congruence].
Qed.

(** X18: on a latch from this [NewLoquet] no run of [Close], [Set], [Read]
    and [WhenClosed] panics, however often [Close] is called; the channel
    made by the constructor stays the one [WhenClosed] returns, and it is
    closed exactly when the closed flag is set. *)
Theorem eager_never_panics (p : option T) (cs : list (call T)) h :
  ∃ rs w',
    with_new p (run cs) h = Done rs w' ∧
    ch (self w') = Some (length h) ∧
    fired (heap w') (ch (self w')) = isClosed (self w').
Proof.
  set (w0 := mkWorld (h ++ [false]) (mkLoquet (Some (length h)) p false)).
  assert (Hw0 : chan_inv w0).
  { exists (length h). split; [done|]. by apply list_lookup_middle. }
  destruct (eager_run_inv cs w0 Hw0) as (rs & w' & Hrun & (i & Hc & Hi) & Hch).
  exists rs, w'. split; [exact Hrun|]. split; [done|].
  rewrite Hc. simpl. by rewrite Hi.
Qed.

(** X19: the first [Close] decides: after [NewLoquet(X)], [Close(a)] and
    [Close(b)], [Read] gives the closed flag and the payload [a], or [X]
    when [a] is nil; the second [Close] is ignored without a word. *)
Theorem eager_first_Close_wins (X a b : option T) h :
  result (with_new X (Close a;; Close b;; Read) h) =
  Some (match a with Some _ => a | None => X end, true).
Proof.
  assert (Hi : (h ++ [false]) !! length h = Some false)
    by (by apply list_lookup_middle).
  unfold with_new, NewLoquet, make_chan, mret, M_ret, mbind, M_bind.
  rewrite (eager_Close_eq a _ (length h)) by done. simpl.
  erewrite (eager_Close_eq b _ (length h)).
  - by destruct a.
  - by destruct a.
  - destruct a; simpl; apply list_lookup_insert_eq;
      rewrite length_app; simpl; lia.
Qed.

End EagerMore.

(** * The [Chan[T]] with the resetting reads *)

Section ResetMore.

Import ResetChan.

Context {T : Type}.

Implicit Types (w : world T) (f : Chan T) (v : option T) (h : chanheap).

Lemma ReadVersionAndReset_eq v w :
  ReadVersionAndReset v w =
  Done (closeVal (self w), version (self w))
    (mkWorld (heap w)
       (mkChan (whenClosed (self w)) v false (incr (version (self w))))).
Proof. destruct w as [h [c cv b n]]. reflexivity. Qed.

Lemma ReadAndReset_eq v w :
  ReadAndReset v w =
  Done (closeVal (self w))
    (mkWorld (heap w)
       (mkChan (whenClosed (self w)) v false (incr (version (self w))))).
Proof. destruct w as [h [c cv b n]]. reflexivity. Qed.

Lemma reset_Close_eq w i :
  whenClosed (self w) = Some i →
  Close w =
  if isClosed (self w) then Done (Some ErrAlreadyClosed) w
  else match heap w !! i with
       | Some false =>
           Done None (mkWorld (<[i:=true]> (heap w)) (set_isClosed true (self w)))
       | _ => Panic "close of closed channel"
       end.
Proof.
  destruct w as [h [c cv b n]]; simpl. intros ->.
  unfold Close. monad. destruct b; [reflexivity|].
  unfold on_heap, close; simpl. by destruct (h !! i) as [[]|].
Qed.

Lemma reset_CloseWith_eq v w i :
  whenClosed (self w) = Some i →
  CloseWith v w =
  if isClosed (self w) then Done (Some ErrAlreadyClosed) w
  else match heap w !! i with
       | Some false =>
           Done None
             (mkWorld (<[i:=true]> (heap w))
                (mkChan (Some i) v true (incr (version (self w)))))
       | _ => Panic "close of closed channel"
       end.
Proof.
  destruct w as [h [c cv b n]]; simpl. intros ->.
  unfold CloseWith, bump. monad. destruct b; [reflexivity|].
  unfold on_heap, close; simpl. by destruct (h !! i) as [[]|].
Qed.

(** X20: a reset does not replace the channel.  On a closed latch,
    [ReadAndReset] or [ReadVersionAndReset] followed by [Close] or
    [CloseWith] closes the closed channel a second time: the run
    panics. *)
Theorem reset_then_close_panics (c1 c2 : call T) w :
  chan_inv w →
  isClosed (self w) = true →
  resets c1 = true →
  closes c2 = true →
  run [c1; c2] w = Panic "close of closed channel".
Proof.
  destruct w as [h [c cv b n]]. intros (i & Hc & Hi) Hb H1 H2.
  simpl in *. subst c b.
  destruct c1; try discriminate; destruct c2; try discriminate;
    simpl; unfold mbind, M_bind, mret, M_ret;
    rewrite ?ReadVersionAndReset_eq, ?ReadAndReset_eq; simpl;
    rewrite ?(reset_Close_eq _ i), ?(reset_CloseWith_eq _ _ i) by done;
    simpl; by rewrite Hi.
Qed.

(** X21: after a reset of a closed latch the closed flag is down, but
    [WhenClosed()] still returns the channel that has fired: whoever
    waits on it is let through at once, on a latch that reads open. *)
Theorem reset_leaves_channel_fired (c : call T) w :
  chan_inv w →
  isClosed (self w) = true →
  resets c = true →
  ∃ r w', step c w = Done r w' ∧
    isClosed (self w') = false ∧
    whenClosed (self w') = whenClosed (self w) ∧
    fired (heap w') (whenClosed (self w')) = true.
Proof.
  intros (i & Hc & Hi) Hb Hr. rewrite Hb in Hi.
  destruct c; try discriminate; unfold step, mbind, M_bind;
    rewrite ?ReadVersionAndReset_eq, ?ReadAndReset_eq;
    eexists _, _; (split; [reflexivity|]); simpl;
    rewrite Hc; simpl; by rewrite Hi.
Qed.

(** X22: [ReadAndReset] is [ReadVersionAndReset] without the version: the
    same payload is returned and the same state is left. *)
Theorem ReadAndReset_drops_version v w :
  ReadAndReset v w = (r ← ReadVersionAndReset v; mret r.1) w.
Proof.
  unfold mbind, M_bind. by rewrite ReadVersionAndReset_eq, ReadAndReset_eq.
Qed.

Lemma reset_step_inv (c : call T) w :
  chan_inv w → resets c = false →
  ∃ r w', step c w = Done r w' ∧ chan_inv w' ∧
          whenClosed (self w') = whenClosed (self w).
Proof.
  intros (i & Hc & Hi) Hr.
  assert (Hlt : (i < length (heap w))%nat) by (by eapply lookup_lt_Some).
  destruct c; try discriminate; unfold step, mbind at 1, M_bind.
  - rewrite (reset_CloseWith_eq _ _ i) by done.
    destruct (isClosed (self w)) eqn:Hb.
    + eexists _, _. split; [reflexivity|]. split; [|done].
      exists i. by rewrite Hb.
    + rewrite Hi. eexists _, _. split; [reflexivity|]. split; [|done].
      exists i. simpl. by rewrite list_lookup_insert_eq.
  - rewrite (reset_Close_eq _ i) by done.
    destruct (isClosed (self w)) eqn:Hb.
    + eexists _, _. split; [reflexivity|]. split; [|done].
      exists i. by rewrite Hb.
    + rewrite Hi. eexists _, _. split; [reflexivity|]. split; [|done].
      exists i. simpl. by rewrite list_lookup_insert_eq.
  - eexists _, _. split; [reflexivity|]. split; [|done]. by exists i.
  - unfold SetIfOpen, bump. monad. destruct (isClosed (self w)) eqn:Hb;
      (eexists _, _; split; [reflexivity|]; split; [|done]);
      exists i; simpl; by rewrite ?Hb.
  - eexists _, _. split; [reflexivity|]. split; [|done]. by exists i.
  - eexists _, _. split; [reflexivity|]. split; [|done]. by exists i.
Qed.

(** X23: without the two resetting reads, no run on a latch from this
    [NewChan] panics: [Close] and [CloseWith] can be repeated at will, the
    channel from the constructor stays installed and is closed exactly
    when the closed flag is set. *)
Theorem reset_free_runs_never_panic (p : option T) (cs : list (call T)) h :
  forallb (λ c, negb (resets c)) cs = true →
  ∃ rs w',
    with_new p (run cs) h = Done rs w' ∧
    whenClosed (self w') = Some (length h) ∧
    fired (heap w') (whenClosed (self w')) = isClosed (self w').
Proof.
  unfold with_new, NewChan, make_chan, mbind at 1, M_bind, mret, M_ret.
  set (w0 := mkWorld (h ++ [false]) (mkChan (Some (length h)) p false 0)).
  assert (Hw0 : chan_inv w0 ∧ whenClosed (self w0) = Some (length h)).
  { split; [|done]. exists (length h). split; [done|].
    by apply list_lookup_middle. }
  revert Hw0. generalize w0. clear w0.
  induction cs as [|c cs IH]; intros w [Hw Hch]; simpl.
  - intros _. exists [], w. split; [done|]. split; [done|].
    destruct Hw as (i & -> & Hi). simpl. by rewrite Hi.
  - intros [Hc Hcs]%andb_prop. apply negb_true_iff in Hc.
    destruct (reset_step_inv c w Hw Hc) as (r & w1 & Hstep & Hw1 & Hch1).
    destruct (IH w1) as (rs & w2 & Hrun & Hfin);
      [split; congruence | done |].
    exists (r :: rs), w2. unfold mbind, M_bind. by rewrite Hstep, Hrun.
Qed.

(** Every call that returns leaves a channel of the store installed:
    nothing in this variant assigns to [whenClosed]. *)
Lemma reset_step_allocated (c : call T) w r w' :
  (∃ i (b : bool), whenClosed (self w) = Some i ∧ heap w !! i = Some b) →
  step c w = Done r w' →
  ∃ i (b : bool), whenClosed (self w') = Some i ∧ heap w' !! i = Some b.
Proof.
  destruct w as [h [c0 cv b0 n]]. intros (i & b & Hc & Hi); simpl in *.
  subst c0.
  assert (Hlt : (i < length h)%nat) by (by eapply lookup_lt_Some).
  destruct c; unfold step, mbind at 1, M_bind;
    rewrite ?(reset_CloseWith_eq _ _ i), ?(reset_Close_eq _ i),
      ?ReadVersionAndReset_eq, ?ReadAndReset_eq by done; simpl.
  - destruct b0; [intros [= <- <-]; by exists i, b|].
    rewrite Hi. destruct b; [discriminate|]. intros [= <- <-]; simpl.
    exists i, true. split; [done|]. by apply list_lookup_insert_eq.
  - destruct b0; [intros [= <- <-]; by exists i, b|].
    rewrite Hi. destruct b; [discriminate|]. intros [= <- <-]; simpl.
    exists i, true. split; [done|]. by apply list_lookup_insert_eq.
  - intros [= <- <-]. by exists i, b.
  - unfold SetIfOpen, bump. monad.
    destruct b0; intros [= <- <-]; by exists i, b.
  - intros [= <- <-]. by exists i, b.
  - intros [= <- <-]. by exists i, b.
  - intros [= <- <-]. by exists i, b.
  - intros [= <- <-]. by exists i, b.
Qed.

Lemma reset_run_allocated (cs : list (call T)) : ∀ w rs w',
  (∃ i (b : bool), whenClosed (self w) = Some i ∧ heap w !! i = Some b) →
  run cs w = Done rs w' →
  ∃ i (b : bool), whenClosed (self w') = Some i ∧ heap w' !! i = Some b.
Proof.
  induction cs as [|c cs IH]; intros w rs w' Hw; simpl.
  - by intros [= <- <-].
  - unfold mbind at 1, M_bind.
    destruct (step c w) as [r w1|] eqn:Hstep; [|discriminate].
    unfold mbind at 1, M_bind.
    destruct (run cs w1) as [rs1 w2|] eqn:Hrun; [|discriminate].
    intros [= <- <-]. eapply IH; [|done]. by eapply reset_step_allocated.
Qed.

(** X24: take an open latch that some run of calls from [NewChan] has
    led to, resets included.  If its channel has not fired,
    [CloseWith(v)] stores [v], nil or not, and increments the version,
    while [Close()] keeps payload and version; both return nil and set
    the closed flag.  If its channel has fired already, as after a reset
    of a closed latch, both panic. *)
Theorem CloseWith_stores_Close_keeps v (p : option T) (cs : list (call T))
    h rs w :
  with_new p (run cs) h = Done rs w →
  isClosed (self w) = false →
  if fired (heap w) (whenClosed (self w)) then
    CloseWith v w = Panic "close of closed channel" ∧
    Close w = Panic "close of closed channel"
  else
    ∃ w1 w2,
      CloseWith v w = Done None w1 ∧
      closeVal (self w1) = v ∧
      version (self w1) = incr (version (self w)) ∧
      isClosed (self w1) = true ∧
      Close w = Done None w2 ∧
      closeVal (self w2) = closeVal (self w) ∧
      version (self w2) = version (self w) ∧
      isClosed (self w2) = true.
Proof.
  unfold with_new, NewChan, make_chan, mbind at 1, M_bind, mret, M_ret.
  intros Hrun Hb.
  apply reset_run_allocated in Hrun as (i & b & Hc & Hi);
    [|exists (length h), false; split; [done | by apply list_lookup_middle]].
  rewrite (reset_CloseWith_eq _ _ i), (reset_Close_eq _ i) by done.
  rewrite Hb, Hi, Hc. simpl. rewrite Hi. simpl.
  destruct b; [done|]. by eexists _, _.
Qed.

End ResetMore.

(** * The further theorems at work on concrete latches *)

Section ChanMoreInstances.

Import ChanLatch ChanCalls Examples.

Lemma closed_latch_inv : chan_inv closed_latch.
Proof. by exists 0%nat. Qed.

(** Three [Close] calls on a fresh latch, the first one with nil. *)
Lemma first_Close_wins_witness :
  ∃ w', run (CallClose None :: (CallClose <$> [Some 2%nat; None])) open_latch =
          Done [RetError None; RetError (Some ErrAlreadyClosed);
                RetError (Some ErrAlreadyClosed)] w' ∧
        closeVal (self w') = Some 1%nat.
Proof.
  destruct (first_Close_wins None [Some 2%nat; None] open_latch
              open_latch_inv eq_refl) as (w' & Hrun & Hval & _).
  exists w'. split; [exact Hrun | exact Hval].
Defined.

Lemma SetAndClose_is_Set_then_Close_witness :
  isClosed (self open_latch) = false ∧
  SetAndClose (Some 2%nat) open_latch =
  (Set_ (Some 2%nat);; Close None) open_latch.
Proof.
  split; [reflexivity|].
  exact (SetAndClose_is_Set_then_Close (Some 2%nat) open_latch eq_refl).
Defined.

Lemma closed_latch_frozen_witness :
  ∃ rs, run [CallClose (Some 9%nat); CallSetIfOpen None; CallRead;
             CallSetAndClose None] closed_latch = Done rs closed_latch.
Proof.
  exact (closed_latch_frozen
           [CallClose (Some 9%nat); CallSetIfOpen None; CallRead;
            CallSetAndClose None] closed_latch eq_refl eq_refl).
Defined.

Lemma Open_installs_fresh_channel_witness :
  Open open_latch = Done () open_latch ∧
  ∃ i w', whenClosed (self closed_latch) = Some i ∧
          Open closed_latch = Done () w' ∧
          whenClosed (self w') = Some 1%nat.
Proof.
  split.
  - exact (proj1 (Open_installs_fresh_channel open_latch) eq_refl).
  - destruct (proj2 (Open_installs_fresh_channel closed_latch) eq_refl
                closed_latch_inv) as (i & w' & Hi & Hopen & Hnew & _).
    exists i, w'. split; [exact Hi|]. split; [exact Hopen | exact Hnew].
Defined.

Lemma handle_replaced_only_by_reopen_witness :
  step CallOpen closed_latch =
    Done RetNothing
      (mkWorld [true; false] (mkChan (Some 1%nat) (Some 1%nat) false 0 1 [])) ∧
  (Some 1%nat = whenClosed (self closed_latch) ∨
   (reopens (@CallOpen nat) = true ∧ isClosed (self closed_latch) = true ∧
    false = false ∧ Some 1%nat = Some (length (heap closed_latch)))).
Proof.
  split; [reflexivity|].
  exact (handle_replaced_only_by_reopen CallOpen closed_latch RetNothing
           (mkWorld [true; false] (mkChan (Some 1%nat) (Some 1%nat) false 0 1 []))
           eq_refl).
Defined.

Lemma silent_calls_send_no_signal_witness :
  ∃ r w', step (CallSet None) closed_latch = Done r w' ∧
          heap w' = heap closed_latch ∧
          isClosed (self w') = true.
Proof.
  destruct (silent_calls_send_no_signal (CallSet None) closed_latch eq_refl)
    as (r & w' & Hstep & Hheap & Hflag & _).
  exists r, w'. split; [exact Hstep|]. split; [exact Hheap | exact Hflag].
Defined.

Lemma run_version_bounds_witness :
  0 ≤ version
        (self (mkWorld [false] (mkChan (Some 0%nat) (@None nat) false 0 1 [])))
    ≤ 0 + 2.
Proof.
  apply (run_version_bounds [CallSet None; CallRead] open_latch
           [RetOld (Some 1%nat); RetRead None false]).
  - reflexivity.
  - unfold int_min, int_bits. simpl. lia.
  - unfold len, int_max, int_bits. simpl. lia.
Defined.

Lemma stale_handle_stays_fired_witness :
  fired [true; true; false] (Some 0%nat) = true.
Proof.
  apply (stale_handle_stays_fired [CallOpen; CallClose None; CallReOpen None]
           (Some 0%nat) closed_latch
           [RetNothing; RetError None; RetNothing]
           (mkWorld [true; true; false]
              (mkChan (Some 2%nat) None false 0 2 []))).
  - reflexivity.
  - reflexivity.
Defined.

End ChanMoreInstances.

Section HistoryInstances.

Import ChanLatch ChanCalls Examples.

(** [Set] on the latch with versions 0 and 1 in its history leaves
    versions 1 and 2. *)
Lemma history_versions_consecutive_witness :
  consecutive (self history_latch) ∧
  consecutive
    (mkChan (Some 0%nat) (Some 3%nat) false 2 2
       [mkVersionVal 1 (Some 2%nat); mkVersionVal 2 (Some 3%nat)]).
Proof.
  assert (Hcons : consecutive (self history_latch)) by reflexivity.
  split; [exact Hcons|].
  apply (history_versions_consecutive (CallSet (Some 3%nat)) history_latch
           (RetOld (Some 2%nat))
           (mkWorld [false]
              (mkChan (Some 0%nat) (Some 3%nat) false 2 2
                 [mkVersionVal 1 (Some 2%nat); mkVersionVal 2 (Some 3%nat)]))).
  - reflexivity.
  - exact Hcons.
  - unfold int_min, int_max, int_bits. simpl. lia.
  - reflexivity.
Defined.

End HistoryInstances.

Section LazyInstances.

Import LazyLoquet MoreExamples.

Lemma lazy_closed_is_final_witness :
  isClosed (self lazy_closed) = true ∧
  isClosed (self (mkWorld [true] (mkLoquet (Some 0%nat) (@None nat) true))) = true.
Proof.
  split; [reflexivity|].
  apply (lazy_closed_is_final [CallClose (Some 4%nat); CallSet None; CallRead]
           lazy_closed [RetNothing; RetOld (Some 1%nat); RetRead None true]).
  - reflexivity.
  - reflexivity.
Defined.

End LazyInstances.

Section ResetInstances.

Import ResetChan MoreExamples.

Lemma reset_closed_inv : chan_inv reset_closed.
Proof. by exists 0%nat. Qed.

(** [ReadAndReset(nil)] and then [Close()] on a closed latch. *)
Lemma reset_then_close_panics_witness :
  run [CallReadAndReset None; CallClose] reset_closed =
  Panic "close of closed channel".
Proof.
  exact (reset_then_close_panics (CallReadAndReset None) CallClose
           reset_closed reset_closed_inv eq_refl eq_refl eq_refl).
Defined.

Lemma reset_leaves_channel_fired_witness :
  ∃ r w', step (CallReadVersionAndReset None) reset_closed = Done r w' ∧
          isClosed (self w') = false ∧
          fired (heap w') (whenClosed (self w')) = true.
Proof.
  destruct (reset_leaves_channel_fired (CallReadVersionAndReset None)
              reset_closed reset_closed_inv eq_refl eq_refl)
    as (r & w' & Hstep & Hopen & _ & Hfired).
  exists r, w'. split; [exact Hstep|]. split; [exact Hopen | exact Hfired].
Defined.

Lemma reset_free_runs_never_panic_witness :
  ∃ rs w',
    with_new (Some 1%nat)
      (run [CallClose; CallCloseWith None; CallSet None; CallClose]) [] =
    Done rs w' ∧
    whenClosed (self w') = Some 0%nat.
Proof.
  destruct (reset_free_runs_never_panic (Some 1%nat)
              [CallClose; CallCloseWith None; CallSet None; CallClose] []
              eq_refl) as (rs & w' & Hrun & Hch & _).
  exists rs, w'. split; [exact Hrun | exact Hch].
Defined.

(** On the latch fresh from [NewChan(&1)], and on the one that
    [Close()] and [ReadAndReset(nil)] have left open. *)
Lemma CloseWith_stores_Close_keeps_witness :
  (∃ w1 w2,
     CloseWith None reset_open = Done None w1 ∧ closeVal (self w1) = None ∧
     Close reset_open = Done None w2 ∧ closeVal (self w2) = Some 1%nat) ∧
  CloseWith (Some 2%nat) (mkWorld [true] (mkChan (Some 0%nat) None false 1)) =
  Panic "close of closed channel".
Proof.
  split.
  - destruct (CloseWith_stores_Close_keeps None (Some 1%nat) [] [] []
                reset_open eq_refl eq_refl)
      as (w1 & w2 & Hwith & Hval1 & _ & _ & Hclose & Hval2 & _).
    exists w1, w2. repeat split; assumption.
  - exact (proj1 (CloseWith_stores_Close_keeps (Some 2%nat) (Some 1%nat)
                    [CallClose; CallReadAndReset None] []
                    [RetError None; RetOld (Some 1%nat)]
                    (mkWorld [true] (mkChan (Some 0%nat) None false 1))
                    eq_refl eq_refl)).
Defined.

End ResetInstances.

(** * More on [Chan[T]]: reading the history, and the zero value *)

Section ChanEdges.

Import ChanLatch ChanCalls.

Context {T : Type}.

Implicit Types (w : world T) (f : Chan T) (v : option T) (h : chanheap).
Implicit Types (d : list (VersionVal T)).

(** X25: into a slice at least as long as the history, [ReadPast] copies
    the whole history: [numCopied] is its length, [d[:numCopied]] is the
    history from the oldest entry on, and the rest of [d] is as it was. *)
Theorem ReadPast_whole_history d w :
  (length (past (self w)) ≤ length d)%nat →
  ∃ d',
    ReadPast d w = Done (d', len (past (self w))) w ∧
    take (length (past (self w))) d' = past (self w) ∧
    drop (length (past (self w))) d' = drop (length (past (self w))) d ∧
    length d' = length d.
Proof.
  intros Hlen. set (p := past (self w)) in *.
  exists (p ++ drop (length p) d).
  assert (Hmin : Nat.min (length d) (length p) = length p) by lia.
  split; [|split; [|split]].
  - unfold ReadPast, copy, len, mbind, M_bind, this, mret, M_ret. fold p.
    rewrite Hmin. by rewrite firstn_all.
  - by rewrite take_app_length.
  - by rewrite drop_app_length.
  - rewrite length_app, length_drop. lia.
Qed.

Lemma run_keeps_no_history (cs : list (call T)) : ∀ w rs w',
  run cs w = Done rs w' →
  retain (self w) = 0 → past (self w) = [] →
  retain (self w') = 0 ∧ past (self w') = [].
Proof.
  induction cs as [|c cs IH]; intros w rs w'.
  - by intros [= <- <-].
  - rewrite run_cons.
    destruct (step c w) as [r w1|] eqn:Hstep; [|discriminate].
    destruct (run cs w1) as [rs1 w2|] eqn:Hrun; [|discriminate].
    intros [= <- <-] Hret Hpast.
    destruct (step_self _ _ _ _ Hstep) as [Hret1 Hself].
    apply (IH w1 rs1 w2 Hrun); [congruence|].
    destruct (mutates c (self w)).
    + destruct Hself as (_ & _ & ->). rewrite Hret. by rewrite pushed_off.
    + destruct Hself as (_ & _ & ->). done.
Qed.

(** X26: since [NewChan] returns only for a retention count of 0, no
    latch it has returned ever holds history: in every state a run of
    calls leads to, [retain] is 0, [f.past] is empty, and [ReadPast]
    copies nothing and leaves its slice alone. *)
Theorem reachable_latch_has_no_history w :
  reachable w →
  retain (self w) = 0 ∧ past (self w) = [] ∧
  ∀ d, ReadPast d w = Done (d, 0) w.
Proof.
  intros (h & p & r & cs & rs & Hrun). unfold with_new in Hrun.
  destruct (NewChan p r h) as [f h'|] eqn:Hnew; [|discriminate].
  apply NewChan_Done in Hnew as (-> & -> & ->).
  destruct (run_keeps_no_history cs _ _ _ Hrun eq_refl eq_refl) as [Hret Hpast].
  split; [done|]. split; [done|]. intros d.
  unfold ReadPast, copy, mbind, M_bind, this, mret, M_ret. rewrite Hpast.
  simpl. rewrite Nat.min_0_r. by rewrite drop_0.
Qed.

(** X27: a latch that is open with no channel installed, as the zero
    value [Chan[T]{}] is, cannot be closed: [Close] and [SetAndClose]
    panic on the nil channel, whatever the payload, and [Open] does not
    help, as it returns at once on an open latch. *)
Theorem Close_without_channel_panics v w :
  whenClosed (self w) = None →
  isClosed (self w) = false →
  Close v w = Panic "close of nil channel" ∧
  SetAndClose v w = Panic "close of nil channel" ∧
  Open w = Done () w.
Proof.
  destruct w as [h [c cv b r n p]]; simpl. intros -> ->.
  split; [|split; [|reflexivity]].
  - unfold Close. monad. destruct v; [|reflexivity].
    monad. by rewrite replace_eq.
  - unfold SetAndClose. monad. by rewrite replace_eq.
Qed.

End ChanEdges.

Section ChanEdgeInstances.

Import ChanLatch ChanCalls Examples.

Lemma ReadPast_whole_history_witness :
  ∃ d', ReadPast (replicate 3 (mkVersionVal 7 None)) history_latch =
          Done (d', 2) history_latch ∧
        take 2 d' = past (self history_latch).
Proof.
  destruct (ReadPast_whole_history (replicate 3 (mkVersionVal 7 None))
              history_latch) as (d' & Hcall & Htake & _); [simpl; lia|].
  exists d'. split; [exact Hcall | exact Htake].
Defined.

Lemma reachable_latch_has_no_history_witness :
  reachable closed_latch ∧
  ReadPast [mkVersionVal 7 None] closed_latch =
  Done ([mkVersionVal 7 None], 0) closed_latch.
Proof.
  split; [exact closed_latch_reachable|].
  exact (proj2 (proj2 (reachable_latch_has_no_history closed_latch
                         closed_latch_reachable)) [mkVersionVal 7 None]).
Defined.

(** [Close(&1)] on the zero value. *)
Lemma Close_without_channel_panics_witness :
  Close (Some 1%nat) (mkWorld [] zero_Chan) = Panic "close of nil channel".
Proof.
  exact (proj1 (Close_without_channel_panics (Some 1%nat)
                  (mkWorld [] zero_Chan) eq_refl eq_refl)).
Defined.

End ChanEdgeInstances.
